(** * DIPlib 3.0: broadcasting framework, labelled regions and the
      GreyDimensionsCube measurement feature.

    A shallow embedding of
    - [src/library/framework.cpp] (singleton expansion, processing dimension),
    - [src/measurement/feature_grey_dimensions_cube.h] (feature set-up),
    - [include/diplib/regions.h] (declarations only: the region functions are
      modelled from their documented contract),
    together with the properties stated about them. *)

From Stdlib Require Import Lia ZArith NArith DecimalString.
From stdpp Require Import base tactics option relations list numbers sorting strings.

Local Open Scope nat_scope.

(** ** Errors and results

    [dip_Throw( E::... )] and [DIP_THROW_IF( ... )] abort the running
    function with an error.  Unchecked array indexing ([size[jj]], [in[0]])
    outside the array is undefined behaviour in C++; it is kept here as the
    separate outcome [OUT_OF_BOUNDS] so that theorems can show it is never
    reached. *)

Inductive Error : Set :=
  | DIMENSIONS_DONT_MATCH         (* E::DIMENSIONS_DONT_MATCH, DimensionMismatch *)
  | NOT_SCALAR                    (* E::NOT_SCALAR *)
  | DIMENSIONALITY_NOT_SUPPORTED  (* E::DIMENSIONALITY_NOT_SUPPORTED *)
  | NotScalarOrNotBinary          (* named in the specification only *)
  | UnsupportedBoundaryCondition  (* named in the specification only *)
  | NotImplemented                (* named in the specification only *)
  | OUT_OF_BOUNDS.

Inductive Result (A : Type) : Type :=
  | Ok (a : A)
  | Throw (e : Error).
Arguments Ok {A} a.
Arguments Throw {A} e.

#[global] Instance Result_ret : MRet Result := fun A a => Ok a.
#[global] Instance Result_bind : MBind Result := fun A B f m =>
  match m with
  | Ok a => f a
  | Throw e => Throw e
  end.

(** [a[i]] on a C++ array. *)
Definition at_index {A} (a : list A) (i : nat) : Result A :=
  match a !! i with
  | Some x => Ok x
  | None => Throw OUT_OF_BOUNDS
  end.

(** [for( ii = lo; ii < hi; ++ii ) body], threading the loop state. *)
Fixpoint for_loop_n {St} (body : nat → St → Result St) (ii n : nat) (s : St)
  : Result St :=
  match n with
  | 0 => Ok s
  | S n' => s' ← body ii s; for_loop_n body (S ii) n' s'
  end.

Definition for_loop {St} (lo hi : nat) (body : nat → St → Result St) (s : St)
  : Result St :=
  for_loop_n body lo (hi - lo) s.

(** Index of the first element that satisfies [p] ([length l] if none does). *)
Fixpoint find_index {A} (p : A → bool) (l : list A) : nat :=
  match l with
  | [] => 0
  | x :: l' => if p x then 0 else S (find_index p l')
  end.

(** * The broadcasting and dispatch framework ([framework.cpp]) *)

Module Framework.

(** The part of [dip::Image] this file reads: the sizes ([Dimensions()],
    [RefDimensions()]) are a [dip::UnsignedArray], the strides
    ([RefStrides()]) a [dip::IntegerArray]. *)
Record Image : Type := {
  Dimensions : list N;
  Strides : list Z
}.

Definition Dimensionality (img : Image) : nat := length (Dimensions img).

(** ** [SingletonExpandedSize] *)

(** Body of the inner loop of the static helper (lines 24-30). *)
Definition SingletonExpandedSize_body (size2 : list N) (jj : nat) (size : list N)
  : Result (list N) :=
  a ← at_index size jj;
  b ← at_index size2 jj;
  if negb (a =? b)%N then
    if (a =? 1)%N then Ok (<[jj := b]> size)
    else if negb (b =? 1)%N then Throw DIMENSIONS_DONT_MATCH
    else Ok size
  else Ok size.

(** The static helper (lines 16-32): [size] is updated in place; an
    exception leaves the function, so the result is the updated [size] or
    the error. *)
Definition SingletonExpandedSize_pair (size size2 : list N) : Result (list N) :=
  let size :=
    if length size <? length size2 then resize (length size2) 1%N size
    else size in
  for_loop 0 (length size2) (SingletonExpandedSize_body size2) size.

(** [SingletonExpandedSize( ImageArray const& in )] (lines 47-56; the
    overload on [ImageRefArray], lines 35-44, is the same code). *)
Definition SingletonExpandedSize (in_ : list Image) : Result (list N) :=
  first ← at_index in_ 0;
  for_loop 1 (length in_)
    (fun ii size =>
       img ← at_index in_ ii;
       SingletonExpandedSize_pair size (Dimensions img))
    (Dimensions first).

(** ** The singleton-expandable rule, as the specification words it *)

(** Right-padding a dimension list with size-1 entries. *)
Definition pad_right (n : nat) (s : list N) : list N :=
  s ++ replicate (n - length s) 1%N.

(** A dimension pair is a mismatch when both sizes are unequal and neither
    is 1. *)
Definition dimension_mismatch (a b : N) : bool :=
  negb (a =? b)%N && negb (a =? 1)%N && negb (b =? 1)%N.

(** The result takes the non-1 value of the pair. *)
Definition expanded_dim (a b : N) : N := if (a =? 1)%N then b else a.

Definition singleton_expand_rule (s1 s2 : list N) : Result (list N) :=
  let n := Nat.max (length s1) (length s2) in
  let p1 := pad_right n s1 in
  let p2 := pad_right n s2 in
  if existsb (fun ab => dimension_mismatch ab.1 ab.2) (zip p1 p2)
  then Throw DIMENSIONS_DONT_MATCH
  else Ok (zip_with expanded_dim p1 p2).

(** Left-to-right fold of the rule; it stops at the first pair that fails. *)
Fixpoint ComputeBroadcastShape_fold (acc : list N) (rest : list (list N))
  : Result (list N) :=
  match rest with
  | [] => Ok acc
  | s :: rest' =>
      acc' ← singleton_expand_rule acc s;
      ComputeBroadcastShape_fold acc' rest'
  end.

(** Two shapes are broadcast-compatible when the rule accepts them. *)
Definition broadcast_compatible (s1 s2 : list N) : bool :=
  let n := Nat.max (length s1) (length s2) in
  negb (existsb (fun ab => dimension_mismatch ab.1 ab.2)
          (zip (pad_right n s1) (pad_right n s2))).

(** The size along dimension [i] of a shape that is right-padded with
    size-1 entries without end. *)
Definition dim_at (s : list N) (i : nat) : N := default 1%N (s !! i).

(** ** [OptimalProcessingDim] *)

Definition SMALL_IMAGE : N := 63.

(** Body of the loop (lines 85-91).  [||] and [&&] evaluate their right
    operand only when needed. *)
Definition OptimalProcessingDim_body (strides : list Z) (dims : list N)
    (ii : nat) (processingDim : nat) : Result nat :=
  s_ii ← at_index strides ii;
  s_pd ← at_index strides processingDim;
  if (s_ii <? s_pd)%Z then
    d_ii ← at_index dims ii;
    if (SMALL_IMAGE <? d_ii)%N then Ok ii
    else
      d_pd ← at_index dims processingDim;
      if (d_pd <? d_ii)%N then Ok ii else Ok processingDim
  else
    d_pd ← at_index dims processingDim;
    if (d_pd <=? SMALL_IMAGE)%N then
      d_ii ← at_index dims ii;
      if (d_pd <? d_ii)%N then Ok ii else Ok processingDim
    else Ok processingDim.

Definition OptimalProcessingDim (in_ : Image) : Result nat :=
  let strides := Strides in_ in
  let dims := Dimensions in_ in
  for_loop 1 (length strides) (OptimalProcessingDim_body strides dims) 0.

(** Extent and stride of dimension [j] (0 outside the array, which the
    theorems never use). *)
Definition extent (img : Image) (j : nat) : N := default 0%N (Dimensions img !! j).
Definition stride (img : Image) (j : nat) : Z := default 0%Z (Strides img !! j).



(** What the scan of [OptimalProcessingDim] has settled after the dimensions
    below [ii]: among the dimensions seen, either some extent exceeds
    [SMALL_IMAGE] and [pd] is the first of smallest signed stride among
    those, or none does and [pd] is the first of largest extent. *)
Definition scan_invariant (img : Image) (ii pd : nat) : Prop :=
  pd < ii ∧
  (((SMALL_IMAGE < extent img pd)%N
    ∧ (∀ j, j < ii → (SMALL_IMAGE < extent img j)%N →
            (stride img pd ≤ stride img j)%Z)
    ∧ (∀ j, j < pd → (SMALL_IMAGE < extent img j)%N →
            (stride img pd < stride img j)%Z))
   ∨ ((∀ j, j < ii → (extent img j ≤ SMALL_IMAGE)%N)
      ∧ (∀ j, j < ii → (extent img j ≤ extent img pd)%N)
      ∧ (∀ j, j < pd → (extent img j < extent img pd)%N))).

(** ** [SingletonExpansion] *)

Section SingletonExpansion.

(** The stride that [Image::ExpandDimensionality] gives to the dimensions it
    appends is not visible in this file; it is a parameter. *)
Variable singleton_stride : Z.

(** Modelled from the spec: [Image::ExpandDimensionality] (declared outside
    this file; section 4.1 (a)): singleton dimensions are appended until the
    image has [dim] dimensions. *)
Definition ExpandDimensionality (in_ : Image) (dim : nat) : Image :=
  {| Dimensions :=
       Dimensions in_ ++ replicate (dim - length (Dimensions in_)) 1%N;
     Strides :=
       Strides in_ ++ replicate (dim - length (Strides in_)) singleton_stride |}.

(** Modelled from the spec: [Image::ExpandSingletonDimension] (declared
    outside this file; section 4.1 (b)): the size of dimension [dim] becomes
    [sz] and its stride 0. *)
Definition ExpandSingletonDimension (in_ : Image) (dim : nat) (sz : N) : Image :=
  {| Dimensions := <[dim := sz]> (Dimensions in_);
     Strides := <[dim := 0%Z]> (Strides in_) |}.

(** [SingletonExpansion] (lines 59-73).  [in] is modified in place; [size2]
    is the copy of its sizes taken before the loop. *)
Definition SingletonExpansion (in_ : Image) (size : list N) : Result Image :=
  let ndims := length size in
  let in_ :=
    if Dimensionality in_ <? ndims then ExpandDimensionality in_ ndims
    else in_ in
  let size2 := Dimensions in_ in
  for_loop 0 ndims
    (fun ii img =>
       a ← at_index size2 ii;
       b ← at_index size ii;
       if negb (a =? b)%N then Ok (ExpandSingletonDimension img ii b)
       else Ok img)
    in_.

End SingletonExpansion.

(** The sizes [dims] can be expanded to the shape [size]: within [size],
    every size of [dims] equals the one of [size] or is 1. *)
Definition expandable_to (dims size : list N) : bool :=
  forallb (fun ab => (ab.1 =? ab.2)%N || (ab.1 =? 1)%N) (zip dims size).

End Framework.

(** * The GreyDimensionsCube feature ([feature_grey_dimensions_cube.h]) *)

Module Feature.

Section GreyDimensionsCube.

(** [dip::Units], [dip::PhysicalQuantity] and [dip::Image] are declared in
    headers outside this file; the feature uses units only through equality
    ([!=]), [Units::Pixel()], the default constructor and
    [PhysicalQuantity::IsPhysical()], which are taken as parameters. *)
Context {Units : Type} `{EqDecision Units}.
Variable Units_Pixel : Units.
Variable Units_default : Units.
Variable Units_IsPhysical : Units → bool.
Context {dfloat : Type}.

Record PhysicalQuantity : Type := {
  magnitude : dfloat;
  units : Units
}.

Definition IsPhysical (pq : PhysicalQuantity) : bool := Units_IsPhysical (units pq).

(** The part of [dip::Image] the feature reads. *)
Record Image : Type := {
  Dimensionality : nat;
  IsScalar : bool;
  PixelSize : nat → PhysicalQuantity
}.

Record ValueInformation : Type := {
  vi_name : string;
  vi_units : Units
}.

(** The private members of the feature object. *)
Record FeatureGreyDimensionsCube : Type := {
  inertiaIndex_ : Z;
  nD_ : nat
}.

(** [std::to_string( ii )] *)
Definition to_string (ii : nat) : string :=
  NilEmpty.string_of_uint (Nat.to_uint ii).

(** The loop of lines 34-41, entered with [sameUnits = true]: it leaves with
    [false] at the first axis whose units differ from those of axis 0. *)
Fixpoint sameUnits_loop (label : Image) (pq : PhysicalQuantity) (ii n : nat)
  : bool :=
  match n with
  | 0 => true
  | S n' =>
      if decide (units (PixelSize label ii) ≠ units pq) then false
      else sameUnits_loop label pq (S ii) n'
  end.

(** [Initialize] (lines 26-50).  The object is updated in place, also on the
    paths that throw, so the function returns the object together with the
    result. *)
Definition Initialize (self : FeatureGreyDimensionsCube)
    (label grey : Image) (nObjects : nat)
  : FeatureGreyDimensionsCube * Result (list ValueInformation) :=
  if negb (IsScalar grey) then (self, Throw NOT_SCALAR)
  else
    let self := {| inertiaIndex_ := inertiaIndex_ self;
                   nD_ := Dimensionality label |} in
    if (nD_ self <? 2) || (3 <? nD_ self)
    then (self, Throw DIMENSIONALITY_NOT_SUPPORTED)
    else
      let out := replicate (nD_ self)
                   {| vi_name := EmptyString; vi_units := Units_default |} in
      let pq := PixelSize label 0 in
      let sameUnits := IsPhysical pq in
      let sameUnits :=
        if sameUnits then sameUnits_loop label pq 1 (nD_ self - 1)
        else sameUnits in
      let units_ := if sameUnits then units pq else Units_Pixel in
      let out :=
        for_loop 0 (nD_ self)
          (fun ii out =>
             _ ← at_index out ii;
             Ok (<[ii := {| vi_name := "axis" +:+ to_string ii;
                            vi_units := units_ |}]> out))
          out in
      ({| inertiaIndex_ := -1; nD_ := nD_ self |}, out).

(** "All axes share the same physical unit": the pixel size of axis 0 is
    physical and every axis of the label image has its units. *)
Definition axes_share_physical_unit (label : Image) : bool :=
  IsPhysical (PixelSize label 0)
  && forallb
       (fun ii => bool_decide (units (PixelSize label ii)
                               = units (PixelSize label 0)))
       (seq 0 (Dimensionality label)).

End GreyDimensionsCube.

End Feature.

(** * Labelled regions ([regions.h])

    The header declares [Label], [GetObjectLabels], [Relabel],
    [SmallObjectsRemove], [GrowRegions] and [GrowRegionsWeighted]; their
    bodies are in source files that are not among the sources embedded
    here.  The first five are modelled from the specification (sections 3,
    4.2-4.4).  [GrowRegionsWeighted] is not modelled: the header says of its
    mask only "not yet implemented", which leaves open what a call with a
    mask does, and its growth is a floating-point computation. *)

Module Regions.

(** Sizes and pixel values in raster order, the first dimension running
    fastest. *)
Record Image (A : Type) : Type := {
  Sizes : list nat;
  Pixels : list A
}.
Arguments Sizes {A} _.
Arguments Pixels {A} _.

Definition Dimensionality {A} (img : Image A) : nat := length (Sizes img).

(** An image as the functions receive it: binary, of an unsigned integer
    kind (a label image), or of another data type. *)
Inductive AnyImage : Type :=
  | Binary (img : Image bool)
  | Labeled (img : Image N)
  | OtherDataType (sizes : list nat).

Inductive BoundaryCondition : Type :=
  | BC_default
  | BC_periodic
  | BC_other (name : string).

(** ** Connectivity *)

(** Modelled from the spec: the boundary policy of section 4.2 (hard stop
    by default, wraparound on a periodic axis).  Two coordinates along one
    axis are at most one step apart; on a periodic axis the first and the
    last coordinate are one step apart too. *)
Definition axis_adjacent (periodic : bool) (size a b : nat) : bool :=
  (a =? b) || (S a =? b) || (S b =? a)
  || (periodic && (((a =? 0) && (S b =? size)) || ((b =? 0) && (S a =? size)))).

(** Modelled from the spec: the coordinate offsets between two pixels
    (section 3, Connectivity).  For the pixels with linear indices [p] and
    [q]: [Some k] when every coordinate is at most one step apart and [k]
    coordinates differ, [None] otherwise. *)
Fixpoint neighbor_offsets (sizes : list nat) (periodic : list bool) (p q : nat)
  : option nat :=
  match sizes with
  | [] => Some 0
  | s :: sizes' =>
      if axis_adjacent (hd false periodic) s (p mod s) (q mod s) then
        match neighbor_offsets sizes' (tl periodic) (p / s) (q / s) with
        | Some k => Some (if p mod s =? q mod s then k else S k)
        | None => None
        end
      else None
  end.

(** Modelled from the spec: the neighbor relation (section 3,
    Connectivity).  Connectivity 0 is full connectivity; connectivity
    [c > 0] admits the neighbors reached through at most [c] non-zero
    coordinate offsets. *)
Definition neighbors (sizes : list nat) (connectivity : nat)
    (periodic : list bool) (p q : nat) : bool :=
  match neighbor_offsets sizes periodic p q with
  | Some k => (1 <=? k) && ((connectivity =? 0) || (k <=? connectivity))
  | None => false
  end.

(** ** Connected components *)

(** Modelled from the spec: the search for the pixels connected to a seed
    (section 4.2 leaves the algorithm open).  Frontier expansion from the
    pixels of [frontier] into [rest]: returns the pixels reached and the
    pixels left over. *)
Fixpoint flood (adj : nat → nat → bool) (fuel : nat) (frontier rest : list nat)
  : list nat * list nat :=
  match fuel with
  | 0 => ([], rest)
  | S fuel' =>
      match frontier with
      | [] => ([], rest)
      | p :: frontier' =>
          let near := filter (fun q => adj p q) rest in
          let far := filter (fun q => negb (adj p q)) rest in
          let '(c, r) := flood adj fuel' (frontier' ++ near) far in
          (p :: c, r)
      end
  end.

(** Modelled from the spec: the partition of a pixel set into connected
    components (section 4.2): the first pixel left over is the seed of the
    next component. *)
Fixpoint components_from (adj : nat → nat → bool) (fuel : nat)
    (pixels : list nat) : list (list nat) :=
  match fuel with
  | 0 => []
  | S fuel' =>
      match pixels with
      | [] => []
      | p :: rest =>
          let '(c, r) := flood adj (length pixels) [p] rest in
          c :: components_from adj fuel' r
      end
  end.

Definition components (adj : nat → nat → bool) (pixels : list nat)
  : list (list nat) :=
  components_from adj (length pixels) pixels.

(** One step inside the pixel set [c]. *)
Definition linked (adj : nat → nat → bool) (c : list nat) (a b : nat) : Prop :=
  b ∈ c ∧ adj a b = true.

(** Modelled from the spec: a connected component (section 4.2, "foreground
    pixels connected under connectivity belong to the same component").
    [c] is a connected component of the pixel set [U]: a non-empty set of
    pixels of [U] without repetition, closed under adjacency in [U], any two
    of whose pixels are joined by a path inside [c]. *)
Definition is_component (adj : nat → nat → bool) (U c : list nat) : Prop :=
  c ≠ [] ∧ NoDup c
  ∧ (∀ x, x ∈ c → x ∈ U)
  ∧ (∀ a b, a ∈ c → b ∈ U → adj a b = true → b ∈ c)
  ∧ (∀ x y, x ∈ c → y ∈ c → rtc (linked adj c) x y).

(** Linear indices of the foreground pixels, ascending. *)
Definition foreground (px : list bool) : list nat :=
  filter (fun p => nth p px false) (seq 0 (length px)).

Definition is_periodic (bc : BoundaryCondition) : bool :=
  match bc with BC_periodic => true | _ => false end.

Definition is_supported (bc : BoundaryCondition) : bool :=
  match bc with BC_other _ => false | _ => true end.

(** Modelled from the spec: the connected components of a binary image
    (section 4.2), in the order of their first pixel. *)
Definition ConnectedComponents (binary : Image bool) (connectivity : nat)
    (boundaryCondition : list BoundaryCondition) : list (list nat) :=
  components
    (neighbors (Sizes binary) connectivity (map is_periodic boundaryCondition))
    (foreground (Pixels binary)).

(** ** [Label] *)

(** Modelled from the spec: the size limits of [Label] (section 4.2).
    [minSize] and [maxSize] bound the size of the objects; 0 disables the
    bound. *)
Definition size_ok (minSize maxSize n : nat) : bool :=
  ((minSize =? 0) || (minSize <=? n)) && ((maxSize =? 0) || (n <=? maxSize)).

(** Modelled from the spec: the numbering of the components (section 4.2).
    The label of pixel [p]: the components are numbered from [lab] on; the
    pixels of a component that is not kept are reset to 0. *)
Fixpoint assign_label (keep : list nat → bool) (comps : list (list nat))
    (lab : N) (p : nat) : N :=
  match comps with
  | [] => 0
  | c :: comps' =>
      if existsb (Nat.eqb p) c then (if keep c then lab else 0%N)
      else assign_label keep comps' (lab + 1)%N p
  end.

(** The labels of the components that are kept, in ascending order. *)
Fixpoint kept_labels (keep : list nat → bool) (comps : list (list nat))
    (lab : N) : list N :=
  match comps with
  | [] => []
  | c :: comps' =>
      (if keep c then [lab] else []) ++ kept_labels keep comps' (lab + 1)%N
  end.

(** The distinct positive values of a label array. *)
Definition positive_labels (px : list N) : list N :=
  remove_dups (filter (fun v => (0 <? v)%N) px).

(** Modelled from the spec: the body of [Label] (regions.h declares it,
    line 58; section 4.2).  Foreground pixels connected under
    [connectivity] form a component; the components are numbered [1..M];
    components outside [[minSize, maxSize]] are reset to 0 and the others
    keep their number; the return value counts the distinct labels left.
    A boundary condition other than the default and "periodic" is rejected,
    a non-binary input is rejected, and dimensionality 0 gives an empty
    labelling. *)
Definition Label (binary : AnyImage) (connectivity minSize maxSize : nat)
    (boundaryCondition : list BoundaryCondition)
  : Result (Image N * nat) :=
  match binary with
  | Binary b =>
      if negb (forallb is_supported boundaryCondition)
      then Throw UnsupportedBoundaryCondition
      else if Dimensionality b =? 0
      then Ok ({| Sizes := Sizes b;
                  Pixels := replicate (length (Pixels b)) 0%N |}, 0)
      else
        let comps := ConnectedComponents b connectivity boundaryCondition in
        let keep := fun c => size_ok minSize maxSize (length c) in
        let out := map (assign_label keep comps 1%N)
                     (seq 0 (length (Pixels b))) in
        Ok ({| Sizes := Sizes b; Pixels := out |},
            length (positive_labels out))
  | _ => Throw NotScalarOrNotBinary
  end.

(** ** [GetObjectLabels] and [Relabel] *)

(** Modelled from the spec: the body of [GetObjectLabels] (regions.h, line
    82; section 4.3): the distinct labels present, restricted to the mask if
    there is one, and without 0 unless [background] is "include".  The
    model returns them in ascending order. *)
Definition GetObjectLabels (label : Image N) (mask : option (Image bool))
    (include_background : bool) : list N :=
  let inside :=
    match mask with
    | None => Pixels label
    | Some m =>
        map fst (filter (fun vm : N * bool => snd vm)
                   (zip (Pixels label) (Pixels m)))
    end in
  merge_sort N.le
    (remove_dups
       (filter (fun v => include_background || (0 <? v)%N) inside)).

(** Modelled from the spec: the body of [Relabel] (regions.h, line 101;
    sections 3 and 4.3): the labels present are renumbered [1..K] in
    ascending order of their original value; background stays 0. *)
Definition Relabel (label : Image N) : Image N :=
  let labels := GetObjectLabels label None false in
  {| Sizes := Sizes label;
     Pixels := map (fun v => if (v =? 0)%N then 0%N
                             else N.of_nat (S (find_index (N.eqb v) labels)))
                 (Pixels label) |}.

(** The part of [Image::View] the header uses: the image referred to
    ([Reference()]), the mask of the view ([Mask()], a raw image when the
    view has none) and the offsets of a view by indices ([Offsets()]). *)
Record View : Type := {
  Reference : Image N;
  Mask : option (Image bool);
  Offsets : list nat
}.

(** Modelled from the spec: the conversion [Image( label )] of a view
    (declared outside the header; section 4.3, "first materializing a
    contiguous copy"; the comment on line 95 says "we copy the data over
    to a new image"): a new 1D image with the pixels at the offsets. *)
Definition Image_of_View (label : View) : Image N :=
  {| Sizes := [length (Offsets label)];
     Pixels := map (fun o => nth o (Pixels (Reference label)) 0%N)
                 (Offsets label) |}.

(** [GetObjectLabels( Image::View const& label, String const& background )]
    (lines 87-98). *)
Definition GetObjectLabels_View (label : View) (include_background : bool)
  : list N :=
  if bool_decide (Offsets label = [])
  then GetObjectLabels (Reference label) (Mask label) include_background
  else GetObjectLabels (Image_of_View label) None include_background.

(** ** [SmallObjectsRemove] *)

(** Number of pixels that carry the label [v]. *)
Definition object_size (px : list N) (v : N) : nat :=
  length (filter (fun w => (w =? v)%N) px).

(** Modelled from the spec: the body of [SmallObjectsRemove] (regions.h,
    line 120; section 4.3).  On a label image the objects with fewer than
    [threshold] pixels are set to 0; on a binary image [Label] is called
    with [minSize = threshold] and the result is binarized. *)
Definition SmallObjectsRemove (in_ : AnyImage) (threshold connectivity : nat)
  : Result AnyImage :=
  match in_ with
  | Labeled l =>
      Ok (Labeled
            {| Sizes := Sizes l;
               Pixels := map (fun v => if object_size (Pixels l) v <? threshold
                                       then 0%N else v) (Pixels l) |})
  | Binary b =>
      r ← Label (Binary b) connectivity threshold 0 [];
      Ok (Binary {| Sizes := Sizes (fst r);
                    Pixels := map (fun v => negb (v =? 0)%N) (Pixels (fst r)) |})
  | OtherDataType _ => Throw NotScalarOrNotBinary
  end.

(** ** [GrowRegions] *)

(** Modelled from the spec: alternating connectivity (sections 3 and 4.4,
    "switching parity per iteration"; the schedule itself is not given).
    The connectivity used in growth step [i] (counted from 0): a negative
    [connectivity] asks for alternating connectivity, and the steps switch
    between [|connectivity|] and the other one of face and full
    connectivity. *)
Definition connectivity_at (connectivity : Z) (nD : nat) (i : nat) : nat :=
  if (0 <=? connectivity)%Z then Z.to_nat connectivity
  else
    let c := Z.to_nat (- connectivity) in
    if Nat.even i then c else if c =? 1 then nD else 1.

(** Modelled from the spec: one growth step of [GrowRegions] (section
    4.4), on all pixels at once: a labelled pixel keeps its label; a
    background pixel inside the mask takes the label of its labelled
    neighbors if they all carry the same label, and stays background if it
    has none or if two different labels meet there. *)
Definition grow_step (adj : nat → nat → bool) (mask : option (list bool))
    (px : list N) : list N :=
  map (fun p =>
         let v := nth p px 0%N in
         if negb (v =? 0)%N then v
         else if match mask with
                 | None => true
                 | Some m => nth p m false
                 end
         then match positive_labels
                      (map (fun q => nth q px 0%N)
                         (filter (fun q => adj p q) (seq 0 (length px)))) with
              | [w] => w
              | _ => 0%N
              end
         else 0%N)
    (seq 0 (length px)).

(** Modelled from the spec: [n] growth steps, the first one being step
    number [i]. *)
Fixpoint grow_steps (adj : nat → nat → nat → bool) (mask : option (list bool))
    (i n : nat) (px : list N) : list N :=
  match n with
  | 0 => px
  | S n' => grow_steps adj mask (S i) n' (grow_step (adj i) mask px)
  end.

(** Modelled from the spec: growth until no further change is possible
    ([iterations = 0], section 4.4): it stops when neither the connectivity
    of this step nor that of the next one changes a pixel. *)
Fixpoint grow_until_stable (adj : nat → nat → nat → bool)
    (mask : option (list bool)) (fuel i : nat) (px : list N) : list N :=
  match fuel with
  | 0 => px
  | S fuel' =>
      let next := grow_step (adj i) mask px in
      if bool_decide (next = px)
         && bool_decide (grow_step (adj (S i)) mask px = px)
      then px
      else grow_until_stable adj mask fuel' (S i) next
  end.

(** Neither the connectivity of step [j] nor that of step [j + 1] changes
    a pixel of [px]. *)
Definition stable (adj : nat → nat → nat → bool) (mask : option (list bool))
    (j : nat) (px : list N) : Prop :=
  grow_step (adj j) mask px = px ∧ grow_step (adj (S j)) mask px = px.

(** Number of background pixels, which bounds the number of steps that
    change a pixel. *)
Definition background_count (px : list N) : nat :=
  length (filter (fun v => v = 0%N) px).

(** Modelled from the spec: the body of [GrowRegions] (regions.h, line 151;
    section 4.4).  [iterations = 0] grows until nothing changes; alternating
    connectivity is rejected unless the image has 2 or 3 dimensions. *)
Definition GrowRegions (label : Image N) (mask : option (Image bool))
    (connectivity : Z) (iterations : nat) : Result (Image N) :=
  let nD := Dimensionality label in
  if (connectivity <? 0)%Z && negb ((nD =? 2) || (nD =? 3))
  then Throw DIMENSIONALITY_NOT_SUPPORTED
  else
    let adj := fun i =>
      neighbors (Sizes label) (connectivity_at connectivity nD i) [] in
    let m := option_map Pixels mask in
    let px := Pixels label in
    Ok {| Sizes := Sizes label;
          Pixels := if iterations =? 0
                    then grow_until_stable adj m (2 * length px + 1) 0 px
                    else grow_steps adj m 0 iterations px |}.

End Regions.

(** * Properties *)

(** ** Results and loops *)

Lemma at_index_Some {A} (a : list A) i x : a !! i = Some x → at_index a i = Ok x.
Proof. unfold at_index. by intros ->. Qed.

Lemma at_index_lt {A} (a : list A) i :
  i < length a → ∃ x, a !! i = Some x ∧ at_index a i = Ok x.
Proof.
  intros Hi. destruct (lookup_lt_is_Some_2 a i Hi) as [x Hx].
  exists x. split; [done|]. by apply at_index_Some.
Qed.

Lemma at_index_middle {A} (l1 l2 : list A) x :
  at_index (l1 ++ x :: l2) (length l1) = Ok x.
Proof. apply at_index_Some, list_lookup_middle. done. Qed.

(** A loop whose body keeps an invariant and never throws returns a state
    that satisfies the invariant. *)
Lemma for_loop_n_invariant {St} (P : nat → St → Prop) body n :
  ∀ ii s,
    P ii s →
    (∀ k s, ii ≤ k < ii + n → P k s → ∃ s', body k s = Ok s' ∧ P (S k) s') →
    ∃ s', for_loop_n (St:=St) body ii n s = Ok s' ∧ P (ii + n) s'.
Proof.
  induction n as [|n IH]; intros ii s HP Hbody; simpl.
  - exists s. by rewrite Nat.add_0_r.
  - destruct (Hbody ii s) as (s' & -> & HP'); [lia|done|].
    simpl. destruct (IH (S ii) s' HP') as (s'' & Hs'' & HP'').
    + intros k t Hk. apply Hbody. lia.
    + exists s''. split; [done|]. by replace (ii + S n) with (S ii + n) by lia.
Qed.

Module FrameworkFacts.
Import Framework.

Local Open Scope N_scope.

(** *** The functions on concrete arrays *)

Example SingletonExpandedSize_two_operands :
  SingletonExpandedSize
    [ {| Dimensions := [4; 1]; Strides := [1; 4]%Z |};
      {| Dimensions := [1; 5; 3]; Strides := [1; 1; 5]%Z |} ]
  = Ok [4; 5; 3].
Proof. reflexivity. Qed.

Example SingletonExpandedSize_mismatch :
  SingletonExpandedSize
    [ {| Dimensions := [4; 2]; Strides := [1; 4]%Z |};
      {| Dimensions := [4; 3]; Strides := [1; 4]%Z |};
      {| Dimensions := [4; 1]; Strides := [1; 4]%Z |} ]
  = Throw DIMENSIONS_DONT_MATCH.
Proof. reflexivity. Qed.

Example SingletonExpandedSize_no_operand :
  SingletonExpandedSize [] = Throw OUT_OF_BOUNDS.
Proof. reflexivity. Qed.

Example OptimalProcessingDim_smallest_stride :
  OptimalProcessingDim
    {| Dimensions := [100; 200; 300]; Strides := [60000; 300; 1]%Z |}
  = Ok 2%nat.
Proof. reflexivity. Qed.

Example OptimalProcessingDim_small_dimension :
  OptimalProcessingDim
    {| Dimensions := [3; 200; 300]; Strides := [1; 3; 600]%Z |}
  = Ok 1%nat.
Proof. reflexivity. Qed.

(** With equal small extents the scan stays on the first dimension, also
    when a later one has a smaller stride. *)
Example OptimalProcessingDim_equal_extents :
  OptimalProcessingDim {| Dimensions := [10; 10]; Strides := [10; 1]%Z |}
  = Ok 0%nat.
Proof. reflexivity. Qed.

(** *** The pair helper computes the singleton-expandable rule *)

Lemma expanded_dim_1_r a : expanded_dim a 1 = a.
Proof. unfold expanded_dim. destruct (N.eqb_spec a 1); congruence. Qed.

Lemma dimension_mismatch_1_r a : dimension_mismatch a 1 = false.
Proof. unfold dimension_mismatch. simpl. by rewrite !andb_false_r. Qed.

Lemma zip_with_expanded_ones (s : list N) :
  zip_with expanded_dim s (replicate (length s) 1) = s.
Proof.
  induction s as [|a s IH]; simpl; [done|].
  by rewrite expanded_dim_1_r, IH.
Qed.

Lemma existsb_mismatch_ones (s : list N) :
  existsb (fun ab => dimension_mismatch ab.1 ab.2)
    (zip s (replicate (length s) 1)) = false.
Proof.
  induction s as [|a s IH]; simpl; [done|].
  by rewrite dimension_mismatch_1_r, IH.
Qed.

Lemma zip_with_expanded_pad (s1 s2 : list N) :
  (length s2 ≤ length s1)%nat →
  zip_with expanded_dim s1 (s2 ++ replicate (length s1 - length s2) 1)
  = zip_with expanded_dim s1 s2 ++ drop (length s2) s1.
Proof.
  revert s2. induction s1 as [|a s1 IH]; intros [|b s2] Hlen; simpl in *;
    try done; try lia.
  - by rewrite expanded_dim_1_r, zip_with_expanded_ones.
  - f_equal. apply IH. lia.
Qed.

Lemma existsb_mismatch_pad (s1 s2 : list N) :
  (length s2 ≤ length s1)%nat →
  existsb (fun ab => dimension_mismatch ab.1 ab.2)
    (zip s1 (s2 ++ replicate (length s1 - length s2) 1))
  = existsb (fun ab => dimension_mismatch ab.1 ab.2) (zip s1 s2).
Proof.
  revert s2. induction s1 as [|a s1 IH]; intros [|b s2] Hlen; simpl in *;
    try done; try lia.
  - by rewrite dimension_mismatch_1_r, existsb_mismatch_ones.
  - f_equal. apply IH. lia.
Qed.

(** One pass of the loop body at index [length done1]. *)
Lemma SingletonExpandedSize_body_middle (done1 done2 t1 t2 : list N) a b :
  length done1 = length done2 →
  SingletonExpandedSize_body (done2 ++ b :: t2) (length done1)
    (done1 ++ a :: t1)
  = if dimension_mismatch a b then Throw DIMENSIONS_DONT_MATCH
    else Ok (done1 ++ expanded_dim a b :: t1).
Proof.
  intros Hd. unfold SingletonExpandedSize_body.
  rewrite at_index_middle. rewrite Hd, at_index_middle, <- Hd.
  cbn [mbind Result_bind].
  unfold dimension_mismatch, expanded_dim.
  destruct (N.eqb_spec a b) as [->|Hab]; simpl.
  { by destruct (b =? 1). }
  destruct (N.eqb_spec a 1) as [->|Ha]; simpl.
  { rewrite insert_app_r_alt by lia. by rewrite Nat.sub_diag. }
  by destruct (N.eqb_spec b 1) as [->|Hb].
Qed.

(** The loop of the helper, started at index [length done1] with the first
    [length done1] entries already settled. *)
Lemma SingletonExpandedSize_loop (todo2 : list N) :
  ∀ (done1 done2 todo1 : list N),
    length done1 = length done2 →
    (length todo2 ≤ length todo1)%nat →
    for_loop_n (SingletonExpandedSize_body (done2 ++ todo2))
      (length done1) (length todo2) (done1 ++ todo1)
    = if existsb (fun ab => dimension_mismatch ab.1 ab.2) (zip todo1 todo2)
      then Throw DIMENSIONS_DONT_MATCH
      else Ok (done1 ++ zip_with expanded_dim todo1 todo2
                 ++ drop (length todo2) todo1).
Proof.
  induction todo2 as [|b t2 IH]; intros done1 done2 todo1 Hd Hlen.
  - simpl. destruct todo1; simpl; by rewrite ?drop_0.
  - destruct todo1 as [|a t1]; [simpl in Hlen; lia|].
    cbn [length for_loop_n].
    rewrite SingletonExpandedSize_body_middle by done.
    cbn [zip zip_with existsb fst snd drop].
    destruct (dimension_mismatch a b); [done|].
    cbn [mbind Result_bind orb].
    specialize (IH (done1 ++ [expanded_dim a b]) (done2 ++ [b]) t1).
    rewrite <- !(assoc_L (++)) in IH. simpl in IH.
    rewrite length_app in IH. simpl in IH.
    rewrite Nat.add_1_r in IH. rewrite IH; [done| |simpl in Hlen; lia].
    rewrite !length_app. simpl. lia.
Qed.

Lemma SingletonExpandedSize_pair_rule (s1 s2 : list N) :
  SingletonExpandedSize_pair s1 s2 = singleton_expand_rule s1 s2.
Proof.
  unfold SingletonExpandedSize_pair, singleton_expand_rule, for_loop, pad_right.
  rewrite Nat.sub_0_r.
  destruct (Nat.ltb_spec (length s1) (length s2)) as [Hlt|Hge].
  - rewrite Nat.max_r by lia. rewrite Nat.sub_diag. simpl. rewrite app_nil_r.
    rewrite resize_ge by lia.
    pose proof (SingletonExpandedSize_loop s2 [] []
                  (s1 ++ replicate (length s2 - length s1) 1) eq_refl) as H.
    simpl in H. rewrite H by (rewrite length_app, length_replicate; lia).
    rewrite drop_ge by (rewrite length_app, length_replicate; lia).
    by rewrite app_nil_r.
  - rewrite Nat.max_l by lia. rewrite Nat.sub_diag. simpl. rewrite app_nil_r.
    pose proof (SingletonExpandedSize_loop s2 [] [] s1 eq_refl Hge) as H.
    simpl in H. rewrite H.
    by rewrite existsb_mismatch_pad, zip_with_expanded_pad.
Qed.

(** The outer loop over the operands. *)
Lemma SingletonExpandedSize_operands (rest : list Image) :
  ∀ (before : list Image) (acc : list N),
    for_loop_n
      (fun ii size =>
         img ← at_index (before ++ rest) ii;
         SingletonExpandedSize_pair size (Dimensions img))
      (length before) (length rest) acc
    = ComputeBroadcastShape_fold acc (map Dimensions rest).
Proof.
  induction rest as [|img rest IH]; intros before acc; [done|].
  cbn [length for_loop_n map ComputeBroadcastShape_fold].
  rewrite at_index_middle. cbn [mbind Result_bind].
  rewrite SingletonExpandedSize_pair_rule.
  destruct (singleton_expand_rule acc (Dimensions img)) as [acc'|e]; [|done].
  cbn [mbind Result_bind].
  specialize (IH (before ++ [img]) acc').
  rewrite <- (assoc_L (++)) in IH. simpl in IH.
  rewrite length_app in IH. simpl in IH. rewrite Nat.add_1_r in IH.
  exact IH.
Qed.

(** *** Shapes through their padded dimensions *)

Lemma lookup_pad_right (n : nat) (s : list N) (i : nat) :
  (length s ≤ n)%nat → (i < n)%nat → pad_right n s !! i = Some (dim_at s i).
Proof.
  intros Hn Hi. unfold pad_right, dim_at.
  destruct (decide (i < length s)%nat) as [Hlt|Hge].
  - rewrite lookup_app_l by done.
    destruct (lookup_lt_is_Some_2 s i Hlt) as [x ->]. done.
  - rewrite lookup_app_r by lia.
    rewrite lookup_replicate_2 by lia.
    by rewrite lookup_ge_None_2 by lia.
Qed.

Lemma length_pad_right (n : nat) (s : list N) :
  (length s ≤ n)%nat → length (pad_right n s) = n.
Proof. intros H. unfold pad_right. rewrite length_app, length_replicate. lia. Qed.

Lemma dim_at_ge (s : list N) i : (length s ≤ i)%nat → dim_at s i = 1.
Proof. intros H. unfold dim_at. by rewrite lookup_ge_None_2. Qed.

Lemma shape_eq (r1 r2 : list N) :
  length r1 = length r2 → (∀ i, dim_at r1 i = dim_at r2 i) → r1 = r2.
Proof.
  intros Hlen Hdim. apply list_eq. intros i.
  destruct (decide (i < length r1)%nat) as [Hlt|Hge].
  - destruct (lookup_lt_is_Some_2 r1 i Hlt) as [x Hx].
    destruct (lookup_lt_is_Some_2 r2 i ltac:(lia)) as [y Hy].
    specialize (Hdim i). unfold dim_at in Hdim. rewrite Hx, Hy in *.
    simpl in Hdim. by subst.
  - rewrite !lookup_ge_None_2 by lia. done.
Qed.

Lemma broadcast_compatible_dims (s1 s2 : list N) :
  broadcast_compatible s1 s2 = true ↔
  ∀ i, dimension_mismatch (dim_at s1 i) (dim_at s2 i) = false.
Proof.
  unfold broadcast_compatible.
  set (n := Nat.max (length s1) (length s2)).
  assert (H1 : (length s1 ≤ n)%nat) by lia.
  assert (H2 : (length s2 ≤ n)%nat) by lia.
  rewrite negb_true_iff. split.
  - intros Hex i.
    destruct (decide (i < n)%nat) as [Hi|Hi].
    + destruct (dimension_mismatch (dim_at s1 i) (dim_at s2 i)) eqn:Hm; [|done].
      assert (existsb (λ ab : N * N, dimension_mismatch ab.1 ab.2)
                (zip (pad_right n s1) (pad_right n s2)) = true) as Ht;
        [|congruence].
      apply existsb_exists. exists (dim_at s1 i, dim_at s2 i). split; [|done].
      apply list_elem_of_In, list_elem_of_lookup. exists i.
      rewrite lookup_zip_with. rewrite !lookup_pad_right by done. done.
    + rewrite (dim_at_ge s1), (dim_at_ge s2) by lia. done.
  - intros Hall.
    destruct (existsb _ _) eqn:Hex; [|done].
    apply existsb_exists in Hex as ([a b] & Hin & Hm).
    apply list_elem_of_In, list_elem_of_lookup in Hin as [i Hi].
    rewrite lookup_zip_with in Hi.
    destruct (decide (i < n)%nat) as [Hlt|Hge].
    + rewrite !lookup_pad_right in Hi by done. simpl in Hi.
      injection Hi as <- <-. simpl in Hm. by rewrite Hall in Hm.
    + rewrite (lookup_ge_None_2 (pad_right n s1)) in Hi; [done|].
      rewrite length_pad_right by done. lia.
Qed.

Lemma singleton_expand_rule_compatible (s1 s2 : list N) :
  broadcast_compatible s1 s2 = true →
  ∃ r, singleton_expand_rule s1 s2 = Ok r
       ∧ length r = Nat.max (length s1) (length s2)
       ∧ ∀ i, dim_at r i = expanded_dim (dim_at s1 i) (dim_at s2 i).
Proof.
  intros Hc. unfold singleton_expand_rule.
  unfold broadcast_compatible in Hc. apply negb_true_iff in Hc. rewrite Hc.
  set (n := Nat.max (length s1) (length s2)).
  assert (H1 : (length s1 ≤ n)%nat) by lia.
  assert (H2 : (length s2 ≤ n)%nat) by lia.
  eexists. split; [done|]. split.
  - rewrite length_zip_with, !length_pad_right by done. lia.
  - intros i. destruct (decide (i < n)%nat) as [Hi|Hi].
    + unfold dim_at at 1. rewrite lookup_zip_with.
      by rewrite !lookup_pad_right by done.
    + rewrite (dim_at_ge s1), (dim_at_ge s2) by lia.
      rewrite dim_at_ge; [done|].
      rewrite length_zip_with, !length_pad_right by done. lia.
Qed.

Lemma expanded_dim_compatible a b c :
  dimension_mismatch a b = false →
  dimension_mismatch a c = false →
  dimension_mismatch b c = false →
  dimension_mismatch (expanded_dim a b) c = false
  ∧ expanded_dim (expanded_dim a b) c = expanded_dim (expanded_dim c a) b.
Proof.
  unfold dimension_mismatch, expanded_dim.
  destruct (N.eqb_spec a b), (N.eqb_spec a c), (N.eqb_spec b c),
    (N.eqb_spec a 1), (N.eqb_spec b 1), (N.eqb_spec c 1);
    simpl; try done; try congruence; intros _ _ _;
    repeat match goal with
           | |- context [N.eqb ?x ?y] => destruct (N.eqb_spec x y)
           end; simpl; split; congruence.
Qed.

Lemma dimension_mismatch_sym a b :
  dimension_mismatch a b = dimension_mismatch b a.
Proof.
  unfold dimension_mismatch.
  rewrite (N.eqb_sym a b). by destruct (b =? a), (a =? 1), (b =? 1).
Qed.

(** A fold over three operands, from the rule on padded dimensions. *)
Lemma fold_three (a b c : list N) :
  broadcast_compatible a b = true →
  broadcast_compatible a c = true →
  broadcast_compatible b c = true →
  ∃ r, ComputeBroadcastShape_fold a [b; c] = Ok r
       ∧ length r = Nat.max (Nat.max (length a) (length b)) (length c)
       ∧ ∀ i, dim_at r i
              = expanded_dim (expanded_dim (dim_at a i) (dim_at b i)) (dim_at c i).
Proof.
  intros Hab Hac Hbc.
  destruct (singleton_expand_rule_compatible a b Hab) as (ab & Hr & Hl & Hd).
  assert (Habc : broadcast_compatible ab c = true).
  { apply broadcast_compatible_dims. intros i. rewrite Hd.
    apply expanded_dim_compatible; by apply broadcast_compatible_dims. }
  destruct (singleton_expand_rule_compatible ab c Habc) as (r & Hr' & Hl' & Hd').
  exists r. simpl. rewrite Hr. simpl. rewrite Hr'. simpl.
  split; [done|]. split; [lia|].
  intros i. by rewrite Hd', Hd.
Qed.

Lemma broadcast_compatible_sym (a b : list N) :
  broadcast_compatible a b = true → broadcast_compatible b a = true.
Proof.
  rewrite !broadcast_compatible_dims. intros H i.
  by rewrite dimension_mismatch_sym.
Qed.

Lemma ComputeBroadcastShape_fold_error (rest : list (list N)) :
  ∀ acc e, ComputeBroadcastShape_fold acc rest = Throw e →
           e = DIMENSIONS_DONT_MATCH.
Proof.
  induction rest as [|s rest IH]; intros acc e; simpl; [done|].
  unfold singleton_expand_rule.
  destruct (existsb _ _); simpl; [congruence|apply IH].
Qed.

Lemma SingletonExpandedSize_cons (first : Image) (rest : list Image) :
  SingletonExpandedSize (first :: rest)
  = ComputeBroadcastShape_fold (Dimensions first) (map Dimensions rest).
Proof.
  unfold SingletonExpandedSize, for_loop. simpl.
  rewrite Nat.sub_0_r.
  exact (SingletonExpandedSize_operands rest [first] (Dimensions first)).
Qed.

(** C1. For every ordered list of one or more arrays,
    [SingletonExpandedSize] returns the shape obtained by the left-to-right
    fold of the singleton-expandable rule (right-pad the shorter dimension
    list with 1, take the non-1 value of every pair), and it throws
    [DIMENSIONS_DONT_MATCH] exactly when the fold meets a first operand pair
    in which some dimension pair has unequal sizes that are both not 1; it
    ends in no other error. *)
Theorem SingletonExpandedSize_is_fold (first : Image) (rest : list Image) :
  SingletonExpandedSize (first :: rest)
  = ComputeBroadcastShape_fold (Dimensions first) (map Dimensions rest)
  ∧ ∀ e, SingletonExpandedSize (first :: rest) = Throw e →
         e = DIMENSIONS_DONT_MATCH.
Proof.
  split; [apply SingletonExpandedSize_cons|].
  rewrite SingletonExpandedSize_cons. apply ComputeBroadcastShape_fold_error.
Qed.

(** C3. For every three arrays [A], [B], [C] whose shapes are pairwise
    broadcast-compatible, [SingletonExpandedSize] over [[A; B; C]] and over
    [[C; A; B]] both succeed and return the same shape. *)
Theorem SingletonExpandedSize_rotate (A B C : Image) :
  broadcast_compatible (Dimensions A) (Dimensions B) = true →
  broadcast_compatible (Dimensions A) (Dimensions C) = true →
  broadcast_compatible (Dimensions B) (Dimensions C) = true →
  ∃ shape,
    SingletonExpandedSize [A; B; C] = Ok shape
    ∧ SingletonExpandedSize [C; A; B] = Ok shape.
Proof.
  intros Hab Hac Hbc.
  rewrite !SingletonExpandedSize_cons. cbn [map].
  destruct (fold_three _ _ _ Hab Hac Hbc) as (r & Hr & Hl & Hd).
  destruct (fold_three (Dimensions C) (Dimensions A) (Dimensions B))
    as (r' & Hr' & Hl' & Hd');
    auto using broadcast_compatible_sym.
  exists r. split; [done|]. rewrite Hr'. f_equal.
  apply shape_eq; [lia|]. intros i. rewrite Hd, Hd'.
  symmetry. apply expanded_dim_compatible; by apply broadcast_compatible_dims.
Qed.

Lemma SingletonExpandedSize_rotate_witness :
  ∃ shape,
    SingletonExpandedSize
      [ {| Dimensions := [4; 1]%N; Strides := [1; 4]%Z |};
        {| Dimensions := [1; 5; 3]%N; Strides := [1; 1; 5]%Z |};
        {| Dimensions := [4]%N; Strides := [1]%Z |} ] = Ok shape
    ∧ SingletonExpandedSize
        [ {| Dimensions := [4]%N; Strides := [1]%Z |};
          {| Dimensions := [4; 1]%N; Strides := [1; 4]%Z |};
          {| Dimensions := [1; 5; 3]%N; Strides := [1; 1; 5]%Z |} ] = Ok shape.
Proof.
  apply (SingletonExpandedSize_rotate
           {| Dimensions := [4; 1]%N; Strides := [1; 4]%Z |}
           {| Dimensions := [1; 5; 3]%N; Strides := [1; 1; 5]%Z |}
           {| Dimensions := [4]%N; Strides := [1]%Z |}); reflexivity.
Defined.

(** *** [OptimalProcessingDim] *)




(** The loop body on indices inside both arrays. *)
Lemma OptimalProcessingDim_body_in_range (img : Image) (ii pd : nat) :
  length (Strides img) = length (Dimensions img) →
  (ii < length (Strides img))%nat → (pd < length (Strides img))%nat →
  OptimalProcessingDim_body (Strides img) (Dimensions img) ii pd
  = Ok (if (stride img ii <? stride img pd)%Z
        then if (SMALL_IMAGE <? extent img ii) || (extent img pd <? extent img ii)
             then ii else pd
        else if (extent img pd <=? SMALL_IMAGE) && (extent img pd <? extent img ii)
             then ii else pd).
Proof.
  intros Hlen Hii Hpd. unfold OptimalProcessingDim_body, stride, extent.
  destruct (at_index_lt (Strides img) ii Hii) as (sii & -> & ->).
  destruct (at_index_lt (Strides img) pd Hpd) as (spd & -> & ->).
  destruct (at_index_lt (Dimensions img) ii ltac:(lia)) as (dii & -> & ->).
  destruct (at_index_lt (Dimensions img) pd ltac:(lia)) as (dpd & -> & ->).
  simpl.
  destruct (sii <? spd)%Z, (SMALL_IMAGE <? dii), (dpd <=? SMALL_IMAGE),
    (dpd <? dii); done.
Qed.

Lemma scan_invariant_step (img : Image) (k pd : nat) :
  length (Strides img) = length (Dimensions img) →
  (1 ≤ k < 1 + (length (Strides img) - 1))%nat →
  scan_invariant img k pd →
  ∃ pd', OptimalProcessingDim_body (Strides img) (Dimensions img) k pd = Ok pd'
         ∧ scan_invariant img (S k) pd'.
Proof.
  intros Hlen Hk (Hpd & Hinv).
  rewrite OptimalProcessingDim_body_in_range by (done || lia).
  eexists. split; [done|].
  assert (Hlt_S : ∀ j, (j < S k)%nat → (j < k)%nat ∨ j = k) by lia.
  destruct Hinv as [(Hbig & Hmin & Hfirst)|(Hsmall & Hmax & Hfirst)].
  - (* an extent above the threshold has been seen *)
    destruct (Z.ltb_spec (stride img k) (stride img pd)) as [Hs|Hs].
    + destruct (N.ltb_spec SMALL_IMAGE (extent img k)) as [Hd|Hd]; simpl.
      * split; [lia|]. left. split; [done|]. split.
        -- intros j Hj Hbj. destruct (Hlt_S j Hj) as [Hj'| ->]; [|lia].
           specialize (Hmin j Hj' Hbj). lia.
        -- intros j Hj Hbj. specialize (Hmin j Hj Hbj). lia.
      * destruct (N.ltb_spec (extent img pd) (extent img k)); [lia|].
        split; [lia|]. left. split; [done|]. split; [|done].
        intros j Hj Hbj. destruct (Hlt_S j Hj) as [Hj'| ->]; [auto|lia].
    + destruct (N.leb_spec (extent img pd) SMALL_IMAGE); [lia|]. simpl.
      split; [lia|]. left. split; [done|]. split; [|done].
      intros j Hj Hbj. destruct (Hlt_S j Hj) as [Hj'| ->]; [auto|lia].
  - (* every extent seen so far is small *)
    pose proof (Hsmall pd Hpd) as Hpd_small.
    destruct (N.ltb_spec SMALL_IMAGE (extent img k)) as [Hd|Hd].
    + assert (Hto_k :
        (if (stride img k <? stride img pd)%Z
         then if true || (extent img pd <? extent img k) then k else pd
         else if (extent img pd <=? SMALL_IMAGE) && (extent img pd <? extent img k)
              then k else pd) = k).
      { destruct (stride img k <? stride img pd)%Z; [done|].
        destruct (N.leb_spec (extent img pd) SMALL_IMAGE); [|lia].
        destruct (N.ltb_spec (extent img pd) (extent img k)); [done|lia]. }
      rewrite Hto_k. split; [lia|]. left. split; [done|]. split.
      * intros j Hj Hbj. destruct (Hlt_S j Hj) as [Hj'| ->]; [|lia].
        specialize (Hsmall j Hj'). lia.
      * intros j Hj Hbj. specialize (Hsmall j Hj). lia.
    + assert (Hsame :
        (if (stride img k <? stride img pd)%Z
         then if false || (extent img pd <? extent img k) then k else pd
         else if (extent img pd <=? SMALL_IMAGE) && (extent img pd <? extent img k)
              then k else pd)
        = if extent img pd <? extent img k then k else pd).
      { destruct (stride img k <? stride img pd)%Z; [done|].
        destruct (N.leb_spec (extent img pd) SMALL_IMAGE); [done|lia]. }
      rewrite Hsame.
      destruct (N.ltb_spec (extent img pd) (extent img k)) as [Hgt|Hle].
      * split; [lia|]. right. split; [|split].
        -- intros j Hj. destruct (Hlt_S j Hj) as [Hj'| ->]; auto.
        -- intros j Hj. destruct (Hlt_S j Hj) as [Hj'| ->]; [|lia].
           specialize (Hmax j Hj'). lia.
        -- intros j Hj. specialize (Hmax j Hj). lia.
      * split; [lia|]. right. split; [|split; [|done]].
        -- intros j Hj. destruct (Hlt_S j Hj) as [Hj'| ->]; auto.
        -- intros j Hj. destruct (Hlt_S j Hj) as [Hj'| ->]; auto.
Qed.

Lemma OptimalProcessingDim_scan (img : Image) :
  length (Strides img) = length (Dimensions img) →
  (0 < length (Strides img))%nat →
  ∃ r, OptimalProcessingDim img = Ok r
       ∧ scan_invariant img (length (Strides img)) r.
Proof.
  intros Hlen Hpos. unfold OptimalProcessingDim, for_loop.
  destruct (for_loop_n_invariant (scan_invariant img)
              (OptimalProcessingDim_body (Strides img) (Dimensions img))
              (length (Strides img) - 1) 1 0%nat) as (r & Hr & Hinv).
  - split; [lia|].
    destruct (N.ltb_spec SMALL_IMAGE (extent img 0)) as [Hd|Hd].
    + left. split; [done|]. split.
      * intros j Hj _. by replace j with 0%nat by lia.
      * intros j Hj. lia.
    + right. split; [|split].
      * intros j Hj. by replace j with 0%nat by lia.
      * intros j Hj. by replace j with 0%nat by lia.
      * intros j Hj. lia.
  - intros k pd Hk Hinv. apply scan_invariant_step; [done|lia|done].
  - exists r. split; [done|].
    by replace (1 + (length (Strides img) - 1))%nat
      with (length (Strides img)) in Hinv by lia.
Qed.




(** C10. For every array (with as many strides as sizes)
    [OptimalProcessingDim] returns an index: one strictly below the number
    of dimensions when there is at least one dimension, and 0 for an array
    with no dimension. *)
Theorem OptimalProcessingDim_valid_index (img : Image) :
  length (Strides img) = length (Dimensions img) →
  ∃ r, OptimalProcessingDim img = Ok r
    ∧ ((0 < Dimensionality img)%nat → (r < Dimensionality img)%nat)
    ∧ (Dimensionality img = 0%nat → r = 0%nat).
Proof.
  unfold Dimensionality. intros Hlen. rewrite <- Hlen.
  destruct (Nat.eq_0_gt_0_cases (length (Strides img))) as [Hz|Hpos].
  - exists 0%nat. unfold OptimalProcessingDim, for_loop. rewrite Hz. simpl.
    split; [done|]. split; [lia|done].
  - destruct (OptimalProcessingDim_scan img Hlen Hpos) as (r & Hr & Hlt & _).
    exists r. split; [done|]. split; [done|lia].
Qed.

Lemma OptimalProcessingDim_valid_index_witness :
  ∃ r, OptimalProcessingDim
         {| Dimensions := [3; 70; 5]%N; Strides := [350; 5; 1]%Z |} = Ok r
    ∧ ((0 < 3)%nat → (r < 3)%nat)
    ∧ (3%nat = 0%nat → r = 0%nat).
Proof.
  apply (OptimalProcessingDim_valid_index
           {| Dimensions := [3; 70; 5]%N; Strides := [350; 5; 1]%Z |}).
  reflexivity.
Defined.

End FrameworkFacts.

Module FeatureFacts.
Import Feature.

Section GreyDimensionsCube.

Context {Units : Type} `{EqDecision Units}.
Variable Units_Pixel : Units.
Variable Units_default : Units.
Variable Units_IsPhysical : Units → bool.
Context {dfloat : Type}.

Abbreviation Image := (@Image Units dfloat).
Abbreviation ValueInformation := (@ValueInformation Units).
Abbreviation Initialize :=
  (@Initialize Units _ Units_Pixel Units_default Units_IsPhysical dfloat).
Abbreviation axes_share_physical_unit :=
  (@axes_share_physical_unit Units _ Units_IsPhysical dfloat).
Abbreviation IsPhysical := (@IsPhysical Units Units_IsPhysical dfloat).

(** The loop with [break] is a test over the axes 1 .. nD-1. *)
Lemma sameUnits_loop_forallb (label : Image) pq n :
  ∀ ii,
    sameUnits_loop label pq ii n
    = forallb (fun k => bool_decide (units (PixelSize label k) = units pq))
        (seq ii n).
Proof.
  induction n as [|n IH]; intros ii; simpl; [done|].
  destruct (decide (units (PixelSize label ii) ≠ units pq)) as [Hne|Heq].
  - by rewrite bool_decide_eq_false_2.
  - apply dec_stable in Heq. rewrite bool_decide_eq_true_2 by done.
    simpl. apply IH.
Qed.

(** The loop of lines 44-47 fills every entry of [out]. *)
Lemma fill_loop (f : nat → ValueInformation) (todo : list ValueInformation) :
  ∀ (filled : list ValueInformation),
    for_loop_n
      (fun ii out => _ ← at_index out ii; Ok (<[ii := f ii]> out))
      (length filled) (length todo) (filled ++ todo)
    = Ok (filled ++ map f (seq (length filled) (length todo))).
Proof.
  induction todo as [|x todo IH]; intros filled; simpl.
  - done.
  - rewrite at_index_middle. simpl.
    rewrite insert_app_r_alt by lia. rewrite Nat.sub_diag. simpl.
    specialize (IH (filled ++ [f (length filled)])).
    rewrite <- (assoc_L (++)) in IH. simpl in IH.
    rewrite length_app in IH. simpl in IH. rewrite Nat.add_1_r in IH.
    rewrite IH. by rewrite <- (assoc_L (++)).
Qed.

Lemma Initialize_accepted (self self' : FeatureGreyDimensionsCube)
    (label grey : Image) (nObjects : nat) (out : list ValueInformation) :
  Initialize self label grey nObjects = (self', Ok out) →
  IsScalar grey = true
  ∧ 2 ≤ Dimensionality label ≤ 3
  ∧ out = map (fun ii =>
                 {| vi_name := "axis" +:+ to_string ii;
                    vi_units :=
                      if axes_share_physical_unit label
                      then units (PixelSize label 0) else Units_Pixel |})
            (seq 0 (Dimensionality label)).
Proof.
  unfold Initialize. cbn [nD_].
  destruct (IsScalar grey); simpl; [|intros [=]].
  destruct (Nat.ltb_spec (Dimensionality label) 2) as [|Hge2]; simpl;
    [intros [=]|].
  destruct (Nat.ltb_spec 3 (Dimensionality label)) as [|Hle3]; simpl;
    [intros [=]|].
  unfold for_loop. rewrite Nat.sub_0_r.
  pose proof (fill_loop
    (fun ii => {| vi_name := "axis" +:+ to_string ii;
                  vi_units :=
                    if (if IsPhysical (PixelSize label 0)
                        then sameUnits_loop label (PixelSize label 0) 1
                               (Dimensionality label - 1)
                        else IsPhysical (PixelSize label 0))
                    then units (PixelSize label 0) else Units_Pixel |})
    (replicate (Dimensionality label)
       {| vi_name := EmptyString; vi_units := Units_default |}) []) as Hfill.
  rewrite length_replicate in Hfill. simpl in Hfill. rewrite Hfill.
  intros [= _ <-]. split; [done|]. split; [lia|].
  apply map_ext. intros ii. f_equal.
  assert (Hsame :
    (if IsPhysical (PixelSize label 0)
     then sameUnits_loop label (PixelSize label 0) 1
            (Dimensionality label - 1)
     else IsPhysical (PixelSize label 0))
    = axes_share_physical_unit label);
    [|by rewrite Hsame].
  unfold axes_share_physical_unit.
  destruct (IsPhysical (PixelSize label 0)); [|done].
  simpl. rewrite sameUnits_loop_forallb.
  destruct (Dimensionality label) as [|n]; [lia|].
  simpl. rewrite Nat.sub_0_r. by rewrite bool_decide_eq_true_2.
Qed.

(** C9. For every label and grey image accepted by [Initialize], the
    returned array has exactly one entry per dimension of the label image,
    and the units of every entry are the units of the label image's pixel
    size when all its axes share the same physical unit, and
    [Units::Pixel()] otherwise. *)
Theorem Initialize_arity_and_units (self self' : FeatureGreyDimensionsCube)
    (label grey : Image) (nObjects : nat) (out : list ValueInformation) :
  Initialize self label grey nObjects = (self', Ok out) →
  length out = Dimensionality label
  ∧ ∀ ii vi, out !! ii = Some vi →
      (axes_share_physical_unit label = true →
         vi_units vi = units (PixelSize label ii))
      ∧ (axes_share_physical_unit label = false →
         vi_units vi = Units_Pixel).
Proof.
  intros Hinit.
  destruct (Initialize_accepted _ _ _ _ _ _ Hinit) as (_ & _ & ->).
  split; [by rewrite length_map, length_seq|].
  intros ii vi Hvi. rewrite list_lookup_fmap in Hvi.
  destruct (seq 0 (Dimensionality label) !! ii) as [k|] eqn:Hk; [|done].
  apply lookup_seq in Hk as [-> Hlt]. simpl in Hvi. injection Hvi as <-.
  simpl. split; intros Hshare; rewrite Hshare; [|done].
  unfold axes_share_physical_unit in Hshare.
  apply andb_true_iff in Hshare as [_ Hall].
  rewrite forallb_forall in Hall.
  specialize (Hall ii). rewrite bool_decide_eq_true in Hall.
  symmetry. apply Hall. apply in_seq. lia.
Qed.

End GreyDimensionsCube.

(** A 3D label image sampled in micrometres along every axis, with units
    written as strings. *)
Lemma Initialize_arity_and_units_witness :
  let is_physical := fun u : string => negb (bool_decide (u = "px"))
                                       && negb (bool_decide (u = "1")) in
  let label := {| Dimensionality := 3; IsScalar := true;
                  PixelSize := fun _ => {| magnitude := 2%Z; units := "um" |} |} in
  let out := [ {| vi_name := "axis0"; vi_units := "um" |};
               {| vi_name := "axis1"; vi_units := "um" |};
               {| vi_name := "axis2"; vi_units := "um" |} ] in
  length out = Dimensionality label
  ∧ ∀ ii vi, out !! ii = Some vi →
      (axes_share_physical_unit is_physical label = true →
         vi_units vi = units (PixelSize label ii))
      ∧ (axes_share_physical_unit is_physical label = false →
         vi_units vi = "px").
Proof.
  intros is_physical label out.
  apply (Initialize_arity_and_units "px" "1" is_physical
           {| inertiaIndex_ := 0; nD_ := 0 |}
           {| inertiaIndex_ := -1; nD_ := 3 |}
           label label 1 out).
  reflexivity.
Defined.

End FeatureFacts.

Module RegionsFacts.
Import Regions.

(** ** Connected components of a pixel set under a symmetric adjacency *)

Section Components.

Variable adj : nat → nat → bool.

Lemma filter_split (p : nat) (rest : list nat) :
  filter (fun q => adj p q) rest ++ filter (fun q => negb (adj p q)) rest
  ≡ₚ rest.
Proof.
  induction rest as [|x rest IH]; [done|].
  rewrite !filter_cons. destruct (adj p x) eqn:Hx; simpl.
  - by rewrite IH.
  - rewrite <- Permutation_middle. by rewrite IH.
Qed.

Lemma linked_mono (c c' : list nat) a b :
  (∀ x, x ∈ c → x ∈ c') → rtc (linked adj c) a b → rtc (linked adj c') a b.
Proof.
  intros Hsub. apply rtc_subrel. intros x y [Hy Hxy]. split; auto.
Qed.

Lemma flood_spec (fuel : nat) :
  ∀ frontier rest c r,
    flood adj fuel frontier rest = (c, r) →
    length frontier + length rest ≤ fuel →
    c ++ r ≡ₚ frontier ++ rest
    ∧ (∀ x, x ∈ r → x ∈ rest)
    ∧ (∀ a b, a ∈ c → b ∈ r → adj a b = false)
    ∧ (∀ x, x ∈ frontier → x ∈ c)
    ∧ (∀ x, x ∈ c → ∃ s, s ∈ frontier ∧ rtc (linked adj c) s x).
Proof.
  induction fuel as [|fuel IH]; intros frontier rest c r Hflood Hfuel.
  - destruct frontier; simpl in Hfuel; [|lia].
    simpl in Hflood. injection Hflood as <- <-.
    split_and!; [done|done|intros ? ? []%elem_of_nil|done|intros ? []%elem_of_nil].
  - destruct frontier as [|p fr].
    + simpl in Hflood. injection Hflood as <- <-.
      split_and!;
        [done|done|intros ? ? []%elem_of_nil|done|intros ? []%elem_of_nil].
    + simpl in Hflood.
      destruct (flood adj fuel (fr ++ filter (λ q, adj p q) rest)
                  (filter (λ q, negb (adj p q)) rest)) as [c' r'] eqn:Hrec.
      injection Hflood as <- <-.
      pose proof (filter_split p rest) as Hsplit.
      destruct (IH _ _ _ _ Hrec) as (Hperm & Hleft & Hsep & Hfront & Hconn).
      { rewrite length_app. apply Permutation_length in Hsplit.
        rewrite length_app in Hsplit. simpl in Hfuel. lia. }
      assert (Hfar : ∀ x, x ∈ r' → x ∈ rest ∧ adj p x = false).
      { intros x Hx. apply Hleft, list_elem_of_filter in Hx as [Hx ?].
        split; [done|]. by destruct (adj p x). }
      split; [|split; [|split; [|split]]].
      * simpl. rewrite Hperm, <- (assoc_L (++)), Hsplit. done.
      * intros x Hx. by apply Hfar.
      * intros a b Ha Hb. apply elem_of_cons in Ha as [->|Ha].
        -- by apply Hfar.
        -- by apply Hsep.
      * intros x Hx. apply elem_of_cons in Hx as [->|Hx].
        -- apply list_elem_of_here.
        -- apply list_elem_of_further, Hfront, elem_of_app. by left.
      * intros x Hx. apply elem_of_cons in Hx as [->|Hx].
        { exists p. split; [apply list_elem_of_here|done]. }
        destruct (Hconn x Hx) as (s & Hs & Hpath).
        assert (Hpath' : rtc (linked adj (p :: c')) s x).
        { eapply linked_mono; [|done]. intros y Hy. by apply list_elem_of_further. }
        assert (Hs' : s ∈ c') by by apply Hfront.
        apply elem_of_app in Hs as [Hs|Hs].
        -- exists s. split; [by apply list_elem_of_further|done].
        -- exists p. split; [apply list_elem_of_here|].
           apply list_elem_of_filter in Hs as [Hps _].
           eapply rtc_l; [|exact Hpath'].
           split; [by apply list_elem_of_further|]. by destruct (adj p s).
Qed.

Hypothesis adj_sym : ∀ a b, adj a b = adj b a.

Lemma linked_sym (c : list nat) a b :
  a ∈ c → rtc (linked adj c) a b → rtc (linked adj c) b a.
Proof.
  intros Ha Hpath. induction Hpath as [x|x y z [Hy Hxy] _ IH]; [done|].
  eapply rtc_r; [by apply IH|]. split; [done|]. by rewrite adj_sym.
Qed.

Lemma components_from_spec (fuel : nat) :
  ∀ pixels,
    NoDup pixels → length pixels ≤ fuel →
    concat (components_from adj fuel pixels) ≡ₚ pixels
    ∧ Forall (is_component adj pixels) (components_from adj fuel pixels).
Proof.
  induction fuel as [|fuel IH]; intros pixels Hnd Hfuel.
  - destruct pixels; simpl in *; [done|lia].
  - destruct pixels as [|p rest]; [done|].
    cbn [components_from].
    destruct (flood adj (length (p :: rest)) [p] rest) as [c r] eqn:Hflood.
    destruct (flood_spec _ _ _ _ _ Hflood)
      as (Hperm & Hleft & Hsep & Hfront & Hconn); [simpl; lia|].
    simpl in Hperm.
    assert (Hp : p ∈ c) by (apply Hfront, list_elem_of_here).
    assert (Hnd' : NoDup (c ++ r)) by by rewrite Hperm.
    apply NoDup_app in Hnd' as (Hndc & Hdisj & Hndr).
    assert (Hlen : length c + length r = S (length rest)).
    { apply Permutation_length in Hperm. by rewrite length_app in Hperm. }
    assert (Hcpos : 0 < length c) by (destruct c; [by apply elem_of_nil in Hp|simpl; lia]).
    destruct (IH r Hndr) as (Hperm_r & Hcomps_r); [simpl in Hfuel; lia|].
    assert (Hsplit : ∀ x, x ∈ p :: rest ↔ x ∈ c ∨ x ∈ r).
    { intros x. by rewrite <- Hperm, elem_of_app. }
    split.
    + simpl. by rewrite Hperm_r.
    + constructor.
      * split_and!.
        -- intros ->. by apply elem_of_nil in Hp.
        -- done.
        -- intros x Hx. apply Hsplit. by left.
        -- intros a b Ha Hb Hab. apply Hsplit in Hb as [Hb|Hb]; [done|].
           rewrite (Hsep a b Ha Hb) in Hab. done.
        -- intros x y Hx Hy.
           destruct (Hconn x Hx) as (s & ->%list_elem_of_singleton & Hpx).
           destruct (Hconn y Hy) as (s & ->%list_elem_of_singleton & Hpy).
           etrans; [|exact Hpy]. by apply linked_sym.
      * eapply Forall_impl; [exact Hcomps_r|].
        intros c2 (Hne & Hnd2 & Hsub & Hclosed & Hpaths).
        split_and!; try done.
        -- intros x Hx. apply Hsplit. right. by apply Hsub.
        -- intros a b Ha Hb Hab. apply Hsplit in Hb as [Hb|Hb].
           ++ rewrite adj_sym, (Hsep b a Hb (Hsub a Ha)) in Hab. done.
           ++ by apply (Hclosed a b).
Qed.

Lemma components_spec (pixels : list nat) :
  NoDup pixels →
  concat (components adj pixels) ≡ₚ pixels
  ∧ Forall (is_component adj pixels) (components adj pixels).
Proof. intros Hnd. by apply components_from_spec. Qed.

(** A path inside a component stays inside every closed set that contains
    its start. *)
Lemma path_stays (U c d : list nat) s x :
  (∀ y, y ∈ c → y ∈ U) →
  (∀ a b, a ∈ d → b ∈ U → adj a b = true → b ∈ d) →
  s ∈ d → rtc (linked adj c) s x → x ∈ d.
Proof.
  intros Hsub Hclosed Hs Hpath.
  induction Hpath as [x|x y z [Hy Hxy] _ IH]; [done|].
  apply IH. apply (Hclosed x y); auto.
Qed.

(** Components of a pixel set and of a subset of it that share a pixel hold
    the same pixels, if the larger one lies in the subset. *)
Lemma component_transfer (U U' c c' : list nat) s :
  is_component adj U c → is_component adj U' c' →
  (∀ x, x ∈ U' → x ∈ U) → (∀ x, x ∈ c → x ∈ U') →
  s ∈ c → s ∈ c' →
  ∀ x, x ∈ c' ↔ x ∈ c.
Proof.
  intros (_ & _ & Hsub & Hclosed & Hpaths) (_ & _ & Hsub' & Hclosed' & Hpaths')
    HU Hc Hs Hs' x.
  split; intros Hx.
  - apply (path_stays U c' c s x); auto.
  - apply (path_stays U' c c' s x); auto.
Qed.

End Components.

(** ** The neighbor relation is symmetric *)

Lemma axis_adjacent_sym (periodic : bool) (size a b : nat) :
  axis_adjacent periodic size a b = axis_adjacent periodic size b a.
Proof.
  unfold axis_adjacent. rewrite (Nat.eqb_sym a b).
  destruct (b =? a), (S a =? b), (S b =? a), periodic,
    ((a =? 0) && (S b =? size)), ((b =? 0) && (S a =? size)); done.
Qed.

Lemma neighbor_offsets_sym (sizes : list nat) :
  ∀ periodic p q,
    neighbor_offsets sizes periodic p q = neighbor_offsets sizes periodic q p.
Proof.
  induction sizes as [|s sizes IH]; intros periodic p q; simpl; [done|].
  rewrite axis_adjacent_sym, IH, (Nat.eqb_sym (p mod s)). done.
Qed.

Lemma neighbors_sym (sizes : list nat) (connectivity : nat)
    (periodic : list bool) (p q : nat) :
  neighbors sizes connectivity periodic p q
  = neighbors sizes connectivity periodic q p.
Proof. unfold neighbors. by rewrite neighbor_offsets_sym. Qed.

(** ** The foreground and its components *)

Lemma elem_of_foreground (px : list bool) (p : nat) :
  p ∈ foreground px ↔ px !! p = Some true.
Proof.
  unfold foreground. rewrite list_elem_of_filter, elem_of_seq.
  split.
  - intros [Hnth [_ Hlt]]. simpl in Hlt.
    destruct (lookup_lt_is_Some_2 px p Hlt) as [v Hv].
    rewrite (nth_lookup_Some _ _ false _ Hv) in Hnth.
    destruct v; [done|]. by destruct Hnth.
  - intros Hp. pose proof (lookup_lt_Some _ _ _ Hp).
    rewrite (nth_lookup_Some _ _ false _ Hp). split; [done|lia].
Qed.

Lemma NoDup_foreground (px : list bool) : NoDup (foreground px).
Proof. apply NoDup_filter, NoDup_seq. Qed.

Lemma ConnectedComponents_spec (b : Image bool) (connectivity : nat)
    (bc : list BoundaryCondition) :
  let adj := neighbors (Sizes b) connectivity (map is_periodic bc) in
  let comps := ConnectedComponents b connectivity bc in
  concat comps ≡ₚ foreground (Pixels b)
  ∧ Forall (is_component adj (foreground (Pixels b))) comps.
Proof.
  apply components_spec; [|apply NoDup_foreground].
  intros p q. apply neighbors_sym.
Qed.

Lemma elem_of_concat {A} (l : list (list A)) (x : A) :
  x ∈ concat l ↔ ∃ c, c ∈ l ∧ x ∈ c.
Proof.
  rewrite list_elem_of_In, in_concat. split.
  - intros (c & Hc & Hx). exists c. by rewrite !list_elem_of_In.
  - intros (c & Hc & Hx). exists c. by rewrite <- !list_elem_of_In.
Qed.

(** Distinct entries of a list of lists whose concatenation has no
    repetition are disjoint. *)
Lemma concat_disjoint {A} (l : list (list A)) i j a b x :
  NoDup (concat l) → l !! i = Some a → l !! j = Some b → i ≠ j →
  x ∈ a → x ∉ b.
Proof.
  revert i j. induction l as [|c l IH]; intros i j Hnd Hi Hj Hij Ha Hb; [done|].
  simpl in Hnd. apply NoDup_app in Hnd as (_ & Hdisj & Hnd).
  destruct i as [|i], j as [|j]; simpl in *; simplify_eq.
  - apply (Hdisj x Ha). apply elem_of_concat. exists b.
    split; [by eapply list_elem_of_lookup_2|done].
  - apply (Hdisj x Hb). apply elem_of_concat. exists a.
    split; [by eapply list_elem_of_lookup_2|done].
  - eapply (IH i j); eauto.
Qed.

(** ** Labels assigned to the components *)

Lemma existsb_eqb (p : nat) (c : list nat) :
  existsb (Nat.eqb p) c = true ↔ p ∈ c.
Proof.
  rewrite existsb_exists. split.
  - intros (x & Hx & ->%Nat.eqb_eq). by apply list_elem_of_In.
  - intros Hp. exists p. split; [by apply list_elem_of_In|apply Nat.eqb_refl].
Qed.

Lemma assign_label_nonzero keep (comps : list (list nat)) :
  ∀ lab p,
    assign_label keep comps lab p ≠ 0%N →
    ∃ i c, comps !! i = Some c ∧ p ∈ c ∧ keep c = true
           ∧ assign_label keep comps lab p = (lab + N.of_nat i)%N.
Proof.
  induction comps as [|c comps IH]; intros lab p Hv; simpl in *; [done|].
  destruct (existsb (Nat.eqb p) c) eqn:Hin.
  - destruct (keep c) eqn:Hk; [|done].
    exists 0, c. rewrite <- existsb_eqb. split_and!; try done. simpl. lia.
  - destruct (IH _ _ Hv) as (i & c' & Hi & Hp & Hk & Heq).
    exists (S i), c'. split_and!; try done. rewrite Heq. lia.
Qed.

Lemma assign_label_in keep (comps : list (list nat)) :
  ∀ lab p i c,
    NoDup (concat comps) → comps !! i = Some c → p ∈ c →
    assign_label keep comps lab p
    = if keep c then (lab + N.of_nat i)%N else 0%N.
Proof.
  induction comps as [|c0 comps IH]; intros lab p i c Hnd Hi Hp; [done|].
  destruct i as [|i]; simpl in *.
  - injection Hi as ->. apply existsb_eqb in Hp. rewrite Hp.
    destruct (keep c); [lia|done].
  - apply NoDup_app in Hnd as (_ & Hdisj & Hnd).
    destruct (existsb (Nat.eqb p) c0) eqn:Hin.
    + apply existsb_eqb in Hin. exfalso. apply (Hdisj p Hin).
      apply elem_of_concat. exists c. split; [|done].
      by eapply list_elem_of_lookup_2.
    + rewrite (IH _ p i c Hnd Hi Hp). destruct (keep c); [lia|done].
Qed.

Lemma assign_label_outside keep (comps : list (list nat)) :
  ∀ lab p, p ∉ concat comps → assign_label keep comps lab p = 0%N.
Proof.
  induction comps as [|c comps IH]; intros lab p Hp; simpl in *; [done|].
  apply not_elem_of_app in Hp as [Hc Hrest].
  destruct (existsb (Nat.eqb p) c) eqn:Hin.
  - by apply existsb_eqb in Hin.
  - by apply IH.
Qed.

(** Size filtering keeps a label or resets it; it never changes it. *)
Lemma assign_label_unfiltered keep (comps : list (list nat)) :
  ∀ lab p,
    assign_label keep comps lab p = 0%N
    ∨ assign_label keep comps lab p = assign_label (fun _ => true) comps lab p.
Proof.
  induction comps as [|c comps IH]; intros lab p; simpl; [by left|].
  destruct (existsb (Nat.eqb p) c); [|apply IH].
  destruct (keep c); [by right|by left].
Qed.

Lemma length_kept_labels keep (comps : list (list nat)) :
  ∀ lab, length (kept_labels keep comps lab)
         = length (filter (fun c => keep c) comps).
Proof.
  induction comps as [|c comps IH]; intros lab; simpl; [done|].
  rewrite filter_cons. destruct (keep c); simpl; by rewrite IH.
Qed.

Lemma elem_of_kept_labels keep (comps : list (list nat)) :
  ∀ lab v,
    v ∈ kept_labels keep comps lab ↔
    ∃ i c, comps !! i = Some c ∧ keep c = true ∧ v = (lab + N.of_nat i)%N.
Proof.
  induction comps as [|c comps IH]; intros lab v; simpl.
  - split; [by intros ?%elem_of_nil|by intros (? & ? & ? & _)].
  - rewrite elem_of_app, IH. split.
    + intros [Hv|(i & c' & Hi & Hk & ->)].
      * destruct (keep c) eqn:Hk; [|by apply elem_of_nil in Hv].
        apply list_elem_of_singleton in Hv as ->.
        exists 0, c. split_and!; try done. lia.
      * exists (S i), c'. split_and!; try done. lia.
    + intros ([|i] & c' & Hi & Hk & ->); simpl in Hi.
      * injection Hi as ->. left. rewrite Hk.
        apply list_elem_of_singleton. lia.
      * right. exists i, c'. split_and!; try done. lia.
Qed.

Lemma NoDup_kept_labels keep (comps : list (list nat)) :
  ∀ lab, NoDup (kept_labels keep comps lab).
Proof.
  induction comps as [|c comps IH]; intros lab; simpl; [constructor|].
  apply NoDup_app. split_and!.
  - destruct (keep c); [apply NoDup_singleton|constructor].
  - intros v Hv Hin. destruct (keep c); [|by apply elem_of_nil in Hv].
    apply list_elem_of_singleton in Hv as ->.
    apply elem_of_kept_labels in Hin as (i & _ & _ & _ & Heq). lia.
  - apply IH.
Qed.

Lemma elem_of_positive_labels (px : list N) (v : N) :
  v ∈ positive_labels px ↔ (0 < v)%N ∧ v ∈ px.
Proof.
  unfold positive_labels.
  rewrite elem_of_remove_dups, list_elem_of_filter.
  by rewrite Is_true_true, N.ltb_lt.
Qed.

Section Labelling.

Variable keep : list nat → bool.
Variable comps : list (list nat).
Variable n : nat.
Hypothesis comps_nodup : NoDup (concat comps).
Hypothesis comps_nonempty : ∀ c, c ∈ comps → c ≠ [].
Hypothesis comps_inside : ∀ c x, c ∈ comps → x ∈ c → x < n.

Lemma lookup_labelled (p : nat) (v : N) :
  map (assign_label keep comps 1%N) (seq 0 n) !! p = Some v
  ↔ p < n ∧ v = assign_label keep comps 1%N p.
Proof.
  change (map ?f ?l) with (f <$> l). rewrite list_lookup_fmap.
  destruct (decide (p < n)) as [Hlt|Hge].
  - rewrite lookup_seq_lt by done. simpl.
    split; [by intros [= <-]|by intros [_ ->]].
  - rewrite lookup_ge_None_2 by (rewrite length_seq; lia). simpl.
    split; [done|by intros [? _]].
Qed.

(** The positive values of the labelled array are the labels of the
    components that are kept. *)
Lemma positive_labels_labelled :
  positive_labels (map (assign_label keep comps 1%N) (seq 0 n))
  ≡ₚ kept_labels keep comps 1%N.
Proof.
  apply NoDup_Permutation.
  - apply NoDup_remove_dups.
  - apply NoDup_kept_labels.
  - intros v. rewrite elem_of_positive_labels, elem_of_kept_labels. split.
    + intros [Hpos Hin].
      apply list_elem_of_lookup in Hin as [p Hp].
      apply lookup_labelled in Hp as [Hlt ->].
      destruct (assign_label_nonzero keep comps 1%N p)
        as (i & c & Hi & Hpc & Hk & Heq); [lia|].
      exists i, c. by rewrite Heq.
    + intros (i & c & Hi & Hk & ->). split; [lia|].
      pose proof (list_elem_of_lookup_2 _ _ _ Hi) as Hc.
      assert (∃ p, p ∈ c) as [p Hp].
      { destruct c as [|p c']; [by apply comps_nonempty in Hc|].
        exists p. apply list_elem_of_here. }
      apply list_elem_of_lookup. exists p. apply lookup_labelled.
      split; [by eapply comps_inside|].
      by rewrite (assign_label_in keep comps 1%N p i c), Hk.
Qed.

Lemma length_positive_labels_labelled :
  length (positive_labels (map (assign_label keep comps 1%N) (seq 0 n)))
  = length (filter (fun c => keep c) comps).
Proof.
  by rewrite positive_labels_labelled, length_kept_labels.
Qed.

End Labelling.

(** ** [Label] *)

Lemma filter_all {A} (kp : A → bool) (l : list A) :
  (∀ x, kp x = true) → filter (fun x => kp x) l = l.
Proof.
  intros Hall. induction l as [|x l IH]; [done|].
  rewrite filter_cons, Hall. simpl. by rewrite IH.
Qed.

Lemma assign_label_ext kp kp' (comps : list (list nat)) :
  (∀ c, kp c = kp' c) →
  ∀ lab p, assign_label kp comps lab p = assign_label kp' comps lab p.
Proof.
  intros Hext. induction comps as [|c cs IH]; intros lab p; [done|].
  simpl. by rewrite Hext, IH.
Qed.

Lemma ConnectedComponents_facts (b : Image bool) (connectivity : nat)
    (bc : list BoundaryCondition) :
  let comps := ConnectedComponents b connectivity bc in
  NoDup (concat comps)
  ∧ (∀ c, c ∈ comps → c ≠ [])
  ∧ (∀ c x, c ∈ comps → x ∈ c → x < length (Pixels b))
  ∧ (∀ p, p ∈ concat comps ↔ Pixels b !! p = Some true).
Proof.
  intros comps.
  destruct (ConnectedComponents_spec b connectivity bc) as [Hperm Hcomps].
  fold comps in Hperm, Hcomps. rewrite Forall_forall in Hcomps.
  assert (Hin : ∀ p, p ∈ concat comps ↔ Pixels b !! p = Some true).
  { intros p. by rewrite Hperm, elem_of_foreground. }
  split_and!; [| | |done].
  - rewrite Hperm. apply NoDup_foreground.
  - intros c Hc. by destruct (Hcomps c Hc) as (? & _).
  - intros c x Hc Hx. eapply lookup_lt_Some, Hin, elem_of_concat. eauto.
Qed.

Lemma Label_binary (b : Image bool) (connectivity minSize maxSize : nat)
    (bc : list BoundaryCondition) :
  0 < Dimensionality b → forallb is_supported bc = true →
  Label (Binary b) connectivity minSize maxSize bc
  = Ok ({| Sizes := Sizes b;
           Pixels := map (assign_label
                            (fun c => size_ok minSize maxSize (length c))
                            (ConnectedComponents b connectivity bc) 1%N)
                       (seq 0 (length (Pixels b))) |},
        length (filter (fun c => size_ok minSize maxSize (length c))
                  (ConnectedComponents b connectivity bc))).
Proof.
  intros Hdim Hbc. unfold Label. rewrite Hbc. simpl.
  destruct (Nat.eqb_spec (Dimensionality b) 0) as [|_]; [lia|].
  destruct (ConnectedComponents_facts b connectivity bc)
    as (Hnd & Hne & Hin & _).
  do 2 f_equal.
  by apply (length_positive_labels_labelled
              (fun c => size_ok minSize maxSize (length c))).
Qed.

(** C4. For every binary mask of dimensionality at least 1 (and a supported
    boundary condition), whose foreground is partitioned into [M] connected
    components of which [K] have a size within [[minSize, maxSize]] (0
    disabling a bound): [Label] returns
    exactly [K]; without size limits it returns [M] and uses exactly the
    labels [1..M], 0 on the background only; with size limits every pixel
    keeps the label it has without them or is reset to 0 (no renumbering),
    background pixels are 0, and the positive values present are [K]
    distinct values from [1..M]. *)
Theorem Label_surjective (b : Image bool)
    (connectivity minSize maxSize : nat) (bc : list BoundaryCondition) :
  0 < Dimensionality b → forallb is_supported bc = true →
  let comps := ConnectedComponents b connectivity bc in
  let M := length comps in
  let K := length (filter (fun c => size_ok minSize maxSize (length c)) comps) in
  (concat comps ≡ₚ foreground (Pixels b)
   ∧ Forall (is_component
               (neighbors (Sizes b) connectivity (map is_periodic bc))
               (foreground (Pixels b))) comps)
  ∧ ∃ out raw,
    Label (Binary b) connectivity minSize maxSize bc = Ok (out, K)
    ∧ Label (Binary b) connectivity 0 0 bc = Ok (raw, M)
    ∧ Sizes out = Sizes b
    ∧ length (Pixels out) = length (Pixels b)
    ∧ (∀ p, Pixels b !! p = Some false → Pixels out !! p = Some 0%N)
    ∧ (∀ p v, Pixels raw !! p = Some v →
              (v = 0%N ↔ Pixels b !! p = Some false))
    ∧ (∀ v, v ∈ positive_labels (Pixels raw) ↔ (1 ≤ v ≤ N.of_nat M)%N)
    ∧ (∀ p v, Pixels out !! p = Some v →
              v = 0%N ∨ Pixels raw !! p = Some v)
    ∧ length (positive_labels (Pixels out)) = K
    ∧ (∀ v, v ∈ positive_labels (Pixels out) → (1 ≤ v ≤ N.of_nat M)%N).
Proof.
  intros Hdim Hbc comps M K.
  split; [apply ConnectedComponents_spec|].
  destruct (ConnectedComponents_facts b connectivity bc)
    as (Hnd & Hne & Hinside & Hfg).
  fold comps in Hnd, Hne, Hinside, Hfg.
  set (keep := fun c : list nat => size_ok minSize maxSize (length c)).
  set (keep0 := fun c : list nat => size_ok 0 0 (length c)).
  assert (Hkeep0 : ∀ c, keep0 c = true) by done.
  eexists _, _.
  split; [by apply Label_binary|].
  split.
  { rewrite Label_binary by done. do 2 f_equal. fold comps.
    by rewrite (filter_all keep0). }
  cbn [Sizes Pixels]. fold comps keep keep0.
  assert (Hlabels : ∀ kp v,
    v ∈ positive_labels (map (assign_label kp comps 1%N)
                           (seq 0 (length (Pixels b)))) →
    (1 ≤ v ≤ N.of_nat M)%N).
  { intros kp v Hv.
    rewrite (positive_labels_labelled kp comps _ Hnd Hne Hinside) in Hv.
    apply elem_of_kept_labels in Hv as (i & c & Hi & _ & ->).
    apply lookup_lt_Some in Hi. subst M. lia. }
  split_and!.
  - done.
  - by rewrite length_map, length_seq.
  - intros p Hp. apply lookup_labelled.
    split; [by eapply lookup_lt_Some|].
    symmetry. apply assign_label_outside. rewrite Hfg. congruence.
  - intros p v Hv. apply lookup_labelled in Hv as [Hlt ->].
    destruct (lookup_lt_is_Some_2 (Pixels b) p Hlt) as [[|] Hp].
    + split; [|congruence]. intros Hzero.
      apply Hfg, elem_of_concat in Hp as (c & Hc & Hpc).
      apply list_elem_of_lookup in Hc as [i Hi].
      rewrite (assign_label_in keep0 comps 1%N p i c Hnd Hi Hpc), Hkeep0
        in Hzero. lia.
    + split; [done|]. intros _. apply assign_label_outside.
      rewrite Hfg. congruence.
  - intros v. split; [apply Hlabels|]. intros Hv.
    rewrite (positive_labels_labelled keep0 comps _ Hnd Hne Hinside).
    apply elem_of_kept_labels.
    destruct (lookup_lt_is_Some_2 comps (N.to_nat v - 1)) as [c Hc];
      [subst M; lia|].
    exists (N.to_nat v - 1), c. split_and!; [done|done|lia].
  - intros p v Hv. apply lookup_labelled in Hv as [Hlt ->].
    destruct (assign_label_unfiltered keep comps 1%N p) as [Hz|Heq];
      [by left|right].
    apply lookup_labelled. split; [done|]. rewrite Heq.
    by apply assign_label_ext.
  - by apply (length_positive_labels_labelled keep).
  - apply Hlabels.
Qed.

Lemma Label_surjective_witness :
  let b := {| Sizes := [5; 2];
              Pixels := [true; false; true; true; false;
                         false; false; false; true; true] |} in
  let comps := ConnectedComponents b 1 [] in
  let M := length comps in
  let K := length (filter (fun c => size_ok 2 0 (length c)) comps) in
  (concat comps ≡ₚ foreground (Pixels b)
   ∧ Forall (is_component (neighbors (Sizes b) 1 (map is_periodic []))
               (foreground (Pixels b))) comps)
  ∧ ∃ out raw,
    Label (Binary b) 1 2 0 [] = Ok (out, K)
    ∧ Label (Binary b) 1 0 0 [] = Ok (raw, M)
    ∧ Sizes out = Sizes b
    ∧ length (Pixels out) = length (Pixels b)
    ∧ (∀ p, Pixels b !! p = Some false → Pixels out !! p = Some 0%N)
    ∧ (∀ p v, Pixels raw !! p = Some v →
              (v = 0%N ↔ Pixels b !! p = Some false))
    ∧ (∀ v, v ∈ positive_labels (Pixels raw) ↔ (1 ≤ v ≤ N.of_nat M)%N)
    ∧ (∀ p v, Pixels out !! p = Some v →
              v = 0%N ∨ Pixels raw !! p = Some v)
    ∧ length (positive_labels (Pixels out)) = K
    ∧ (∀ v, v ∈ positive_labels (Pixels out) → (1 ≤ v ≤ N.of_nat M)%N).
Proof.
  apply (Label_surjective
           {| Sizes := [5; 2];
              Pixels := [true; false; true; true; false;
                         false; false; false; true; true] |} 1 2 0 []);
    [vm_compute; lia|reflexivity].
Defined.

(** Two 2 x 2 blocks of a 5 x 5 mask that touch at a corner are two objects
    under face connectivity and one object under full connectivity. *)
Example Label_two_blocks :
  let mask := {| Sizes := [5; 5];
                 Pixels := [true;  true;  false; false; false;
                            true;  true;  false; false; false;
                            false; false; true;  true;  false;
                            false; false; true;  true;  false;
                            false; false; false; false; false] |} in
  (∃ out, Label (Binary mask) 1 0 0 [] = Ok (out, 2))
  ∧ (∃ out, Label (Binary mask) 0 0 0 [] = Ok (out, 1)).
Proof. split; eexists; reflexivity. Qed.

(** The surviving label is not renumbered: of the two objects of this
    image the first one is too small, and the second one keeps label 2. *)
Example Label_keeps_numbers :
  Label (Binary {| Sizes := [5; 2];
                   Pixels := [true; false; true; true; false;
                              false; false; false; true; true] |}) 1 2 0 []
  = Ok ({| Sizes := [5; 2];
           Pixels := [0; 0; 2; 2; 0; 0; 0; 0; 2; 2]%N |}, 1).
Proof. reflexivity. Qed.

(** ** [Relabel] *)

Lemma find_index_lookup (l : list N) :
  ∀ i v, NoDup l → l !! i = Some v → find_index (N.eqb v) l = i.
Proof.
  induction l as [|x l IH]; intros i v Hnd Hi; [done|].
  apply NoDup_cons in Hnd as [Hx Hnd].
  destruct i as [|i]; simpl in *.
  - injection Hi as ->. by rewrite N.eqb_refl.
  - destruct (N.eqb_spec v x) as [->|_].
    + exfalso. apply Hx. by eapply list_elem_of_lookup_2.
    + f_equal. by apply IH.
Qed.

Lemma sorted_lookup_lt (l : list N) :
  ∀ i j a b,
    StronglySorted N.le l → NoDup l →
    l !! i = Some a → l !! j = Some b → i < j → (a < b)%N.
Proof.
  induction l as [|x l IH]; intros i j a b Hs Hnd Hi Hj Hij; [done|].
  apply StronglySorted_inv in Hs as [Hs Hall].
  apply NoDup_cons in Hnd as [Hx Hnd].
  destruct j as [|j]; [lia|]. simpl in Hj.
  destruct i as [|i]; simpl in Hi.
  - injection Hi as ->.
    pose proof (list_elem_of_lookup_2 _ _ _ Hj) as Hb.
    rewrite Forall_forall in Hall. specialize (Hall b Hb).
    assert (a ≠ b) by (intros ->; done). lia.
  - apply (IH i j); auto. lia.
Qed.

Lemma GetObjectLabels_positive (label : Image N) :
  let labels := GetObjectLabels label None false in
  labels ≡ₚ positive_labels (Pixels label)
  ∧ NoDup labels ∧ StronglySorted N.le labels.
Proof.
  unfold GetObjectLabels. cbn [orb].
  assert (Hperm :
    merge_sort N.le
      (remove_dups (filter (λ v : N, (0 <? v)%N) (Pixels label)))
    ≡ₚ positive_labels (Pixels label)) by apply merge_sort_Permutation.
  split; [done|]. split.
  - rewrite Hperm. apply NoDup_remove_dups.
  - apply StronglySorted_merge_sort; apply _.
Qed.

(** C5. For every label array with [K] distinct positive labels, the
    positive values of the array that [Relabel] produces are exactly
    [1..K]; the new labels are in the order of the original label values;
    a pixel is background after [Relabel] exactly when it was before. *)
Theorem Relabel_contiguous (label : Image N) :
  let K := length (positive_labels (Pixels label)) in
  let out := Relabel label in
  Sizes out = Sizes label
  ∧ length (Pixels out) = length (Pixels label)
  ∧ (∀ v, v ∈ positive_labels (Pixels out) ↔ (1 ≤ v ≤ N.of_nat K)%N)
  ∧ (∀ p q a b a' b',
       Pixels label !! p = Some a → Pixels label !! q = Some b →
       Pixels out !! p = Some a' → Pixels out !! q = Some b' →
       (0 < a)%N → (0 < b)%N →
       ((a < b)%N ↔ (a' < b')%N))
  ∧ (∀ p a a',
       Pixels label !! p = Some a → Pixels out !! p = Some a' →
       (a = 0%N ↔ a' = 0%N)).
Proof.
  intros K out.
  destruct (GetObjectLabels_positive label) as (Hperm & Hnd & Hsorted).
  set (labels := GetObjectLabels label None false) in *.
  set (f := fun v : N => if (v =? 0)%N then 0%N
                         else N.of_nat (S (find_index (N.eqb v) labels))).
  assert (Hout : Pixels out = f <$> Pixels label) by done.
  assert (HK : length labels = K) by by rewrite Hperm.
  (* a positive label that is present has a rank in [labels] *)
  assert (Hrank : ∀ p a, Pixels label !! p = Some a → (0 < a)%N →
            ∃ i, labels !! i = Some a ∧ f a = N.of_nat (S i)).
  { intros p a Hp Ha.
    assert (Hin : a ∈ labels).
    { rewrite Hperm. apply elem_of_positive_labels.
      split; [done|]. by eapply list_elem_of_lookup_2. }
    apply list_elem_of_lookup in Hin as [i Hi]. exists i. split; [done|].
    unfold f. destruct (N.eqb_spec a 0); [lia|].
    by rewrite (find_index_lookup labels i a Hnd Hi). }
  assert (Hlook : ∀ p a a', Pixels label !! p = Some a →
            Pixels out !! p = Some a' → a' = f a).
  { intros p a a' Hp Hp'. rewrite Hout, list_lookup_fmap, Hp in Hp'.
    simpl in Hp'. congruence. }
  split_and!.
  - done.
  - by rewrite Hout, length_fmap.
  - intros v. rewrite elem_of_positive_labels. split.
    + intros [Hpos Hv]. rewrite Hout in Hv.
      apply list_elem_of_fmap in Hv as (a & -> & Ha).
      apply list_elem_of_lookup in Ha as [p Hp].
      assert (0 < a)%N as Hapos.
      { destruct (N.eqb_spec a 0) as [->|]; [|lia]. by vm_compute in Hpos. }
      destruct (Hrank p a Hp Hapos) as (i & Hi & ->).
      apply lookup_lt_Some in Hi. lia.
    + intros Hv. split; [lia|].
      destruct (lookup_lt_is_Some_2 labels (N.to_nat v - 1)) as [a Ha]; [lia|].
      assert (Hin : a ∈ positive_labels (Pixels label)).
      { rewrite <- Hperm. by eapply list_elem_of_lookup_2. }
      apply elem_of_positive_labels in Hin as [Hapos Hin].
      apply list_elem_of_lookup in Hin as [p Hp].
      destruct (Hrank p a Hp Hapos) as (i & Hi & Hfa).
      assert (i = N.to_nat v - 1) as ->.
      { eapply NoDup_lookup; eauto. }
      rewrite Hout. apply list_elem_of_fmap. exists a.
      split; [rewrite Hfa; lia|by eapply list_elem_of_lookup_2].
  - intros p q a b a' b' Hp Hq Hp' Hq' Ha Hb.
    rewrite (Hlook p a a' Hp Hp'), (Hlook q b b' Hq Hq').
    destruct (Hrank p a Hp Ha) as (i & Hi & ->).
    destruct (Hrank q b Hq Hb) as (j & Hj & ->).
    split.
    + intros Hab. destruct (Nat.lt_trichotomy i j) as [Hlt|[->|Hgt]]; [lia| |].
      * rewrite Hi in Hj. injection Hj as ->. lia.
      * pose proof (sorted_lookup_lt labels j i b a Hsorted Hnd Hj Hi Hgt). lia.
    + intros Hij.
      apply (sorted_lookup_lt labels i j a b Hsorted Hnd Hi Hj). lia.
  - intros p a a' Hp Hp'. rewrite (Hlook p a a' Hp Hp').
    unfold f. destruct (N.eqb_spec a 0); split; intros; try done; lia.
Qed.

(** ** [SmallObjectsRemove] on a binary image *)

Lemma assign_label_kept keep (comps : list (list nat)) (p : nat) :
  NoDup (concat comps) →
  assign_label keep comps 1%N p ≠ 0%N
  ↔ ∃ c, c ∈ comps ∧ p ∈ c ∧ keep c = true.
Proof.
  intros Hnd. split.
  - intros Hv.
    destruct (assign_label_nonzero keep comps 1%N p Hv) as (i & c & Hi & ? & ? & _).
    exists c. split_and!; try done. by eapply list_elem_of_lookup_2.
  - intros (c & Hc & Hp & Hk).
    apply list_elem_of_lookup in Hc as [i Hi].
    rewrite (assign_label_in keep comps 1%N p i c Hnd Hi Hp), Hk. lia.
Qed.

Section Binarized.

Variable b : Image bool.
Variable connectivity : nat.
Variable bc : list BoundaryCondition.
Variable size_test : nat → bool.

Let keep := fun c : list nat => size_test (length c).
Let comps := ConnectedComponents b connectivity bc.
Let labelled := map (assign_label keep comps 1%N) (seq 0 (length (Pixels b))).
Let once : Image bool :=
  {| Sizes := Sizes b; Pixels := map (fun v => negb (v =? 0)%N) labelled |}.
Let comps' := ConnectedComponents once connectivity bc.

Lemma binarized_lookup (p : nat) :
  Pixels once !! p = Some true
  ↔ ∃ c, c ∈ comps ∧ p ∈ c ∧ keep c = true.
Proof.
  destruct (ConnectedComponents_facts b connectivity bc)
    as (Hnd & Hne & Hinside & Hfg).
  fold comps in Hnd, Hne, Hinside, Hfg.
  rewrite <- (assign_label_kept keep comps p Hnd).
  unfold once. cbn [Pixels].
  change (map ?f ?l) with (f <$> l). rewrite list_lookup_fmap.
  destruct (labelled !! p) as [v|] eqn:Hv; simpl.
  - apply lookup_labelled in Hv as [_ ->].
    destruct (N.eqb_spec (assign_label keep comps 1 p) 0) as [->|Hnz]; simpl.
    + split; [done|]. by intros [].
    + split; [done|]. by intros _.
  - split; [done|]. intros Hnz. exfalso.
    destruct (decide (p < length (Pixels b))) as [Hlt|Hge].
    + assert (is_Some (labelled !! p)) as [? ?]; [|congruence].
      apply lookup_lt_is_Some_2. unfold labelled.
      by rewrite length_map, length_seq.
    + apply (assign_label_kept keep comps p Hnd) in Hnz as (c & Hc & Hp & _).
      specialize (Hinside c p Hc Hp). lia.
Qed.

(** The components of the binarized result are the components that were
    kept, so all of them pass the size test again. *)
Lemma binarized_components_kept (p : nat) :
  assign_label keep comps' 1%N p ≠ 0%N ↔ assign_label keep comps 1%N p ≠ 0%N.
Proof.
  destruct (ConnectedComponents_facts b connectivity bc)
    as (Hnd & Hne & Hinside & Hfg).
  destruct (ConnectedComponents_facts once connectivity bc)
    as (Hnd' & Hne' & Hinside' & Hfg').
  destruct (ConnectedComponents_spec b connectivity bc) as [Hperm Hcomps].
  destruct (ConnectedComponents_spec once connectivity bc) as [Hperm' Hcomps'].
  fold comps in Hnd, Hne, Hinside, Hfg, Hperm, Hcomps.
  fold comps' in Hnd', Hne', Hinside', Hfg', Hperm', Hcomps'.
  change (Sizes once) with (Sizes b) in Hcomps'.
  rewrite Forall_forall in Hcomps, Hcomps'.
  rewrite (assign_label_kept keep comps' p Hnd').
  rewrite (assign_label_kept keep comps p Hnd).
  split.
  - intros (c' & Hc' & Hp & _).
    apply binarized_lookup, Hfg', elem_of_concat. eauto.
  - intros (c & Hc & Hp & Hk).
    assert (Hp' : p ∈ concat comps').
    { apply Hfg', binarized_lookup. eauto. }
    apply elem_of_concat in Hp' as (c' & Hc' & Hpc').
    exists c'. split_and!; try done.
    pose proof (Hcomps c Hc) as Hcomp.
    pose proof (Hcomps' c' Hc') as Hcomp'.
    assert (Hsame : ∀ x, x ∈ c' ↔ x ∈ c).
    { eapply (component_transfer _ _ _ _ _ p Hcomp Hcomp'); try done.
      - intros x Hx. apply elem_of_foreground, binarized_lookup in Hx
          as (c0 & Hc0 & Hx & _).
        rewrite <- Hperm. apply elem_of_concat. eauto.
      - intros x Hx. apply elem_of_foreground, binarized_lookup. eauto. }
    assert (Hlen : length c' = length c).
    { apply Permutation_length, NoDup_Permutation; try done.
      - by destruct Hcomp' as (_ & ? & _).
      - by destruct Hcomp as (_ & ? & _). }
    unfold keep in *. by rewrite Hlen.
Qed.

Lemma binarized_again :
  map (fun v => negb (v =? 0)%N)
    (map (assign_label keep comps' 1%N) (seq 0 (length (Pixels once))))
  = Pixels once.
Proof.
  assert (Hlen : length (Pixels once) = length (Pixels b)).
  { unfold once, labelled. cbn [Pixels]. by rewrite !length_map, length_seq. }
  rewrite Hlen. unfold once, labelled. cbn [Pixels].
  rewrite !map_map. apply map_ext. intros p.
  pose proof (binarized_components_kept p) as Hiff.
  destruct (N.eqb_spec (assign_label keep comps' 1 p) 0) as [Hz'|Hnz'],
    (N.eqb_spec (assign_label keep comps 1 p) 0) as [Hz|Hnz]; simpl;
    try done; tauto.
Qed.

End Binarized.

(** C7. For every binary image, threshold and connectivity,
    [SmallObjectsRemove] returns a binary image, and applying it to this
    result with the same threshold and connectivity returns the same
    image. *)
Theorem SmallObjectsRemove_idempotent (b : Image bool)
    (threshold connectivity : nat) :
  ∃ once,
    SmallObjectsRemove (Binary b) threshold connectivity = Ok (Binary once)
    ∧ SmallObjectsRemove (Binary once) threshold connectivity
      = Ok (Binary once).
Proof.
  destruct (Nat.eq_0_gt_0_cases (Dimensionality b)) as [Hzero|Hpos].
  - (* dimensionality 0: the labelling is empty *)
    exists {| Sizes := Sizes b;
              Pixels := replicate (length (Pixels b)) false |}.
    unfold SmallObjectsRemove, Label. cbn [forallb negb].
    unfold Dimensionality in *. cbn [Sizes Pixels]. rewrite Hzero.
    cbn. rewrite length_replicate.
    change (map ?f ?l) with (f <$> l). rewrite fmap_replicate. done.
  - exists {| Sizes := Sizes b;
              Pixels :=
                map (fun v => negb (v =? 0)%N)
                  (map (assign_label
                          (fun c => size_ok threshold 0 (length c))
                          (ConnectedComponents b connectivity []) 1%N)
                     (seq 0 (length (Pixels b)))) |}.
    unfold SmallObjectsRemove.
    rewrite !Label_binary by done. cbn [mbind Result_bind fst Sizes Pixels].
    split; [reflexivity|].
    do 3 f_equal.
    apply (binarized_again b connectivity [] (size_ok threshold 0)).
Qed.

(** ** [GrowRegions] *)

Lemma length_grow_step adj mask (px : list N) :
  length (grow_step adj mask px) = length px.
Proof. unfold grow_step. by rewrite length_map, length_seq. Qed.

(** A growth step keeps every label that is already there. *)
Lemma grow_step_keeps adj mask (px : list N) (p : nat) (v : N) :
  px !! p = Some v → v ≠ 0%N → grow_step adj mask px !! p = Some v.
Proof.
  intros Hp Hv. unfold grow_step.
  change (map ?f ?l) with (f <$> l). rewrite list_lookup_fmap.
  rewrite lookup_seq_lt by by eapply lookup_lt_Some.
  simpl. rewrite (nth_lookup_Some _ _ _ _ Hp).
  by destruct (N.eqb_spec v 0).
Qed.

Lemma grow_steps_last adj mask (n : nat) :
  ∀ i px,
    grow_steps adj mask i (S n) px
    = grow_step (adj (i + n)) mask (grow_steps adj mask i n px).
Proof.
  induction n as [|n IH]; intros i px.
  - simpl. by rewrite Nat.add_0_r.
  - change (grow_steps adj mask i (S (S n)) px)
      with (grow_steps adj mask (S i) (S n) (grow_step (adj i) mask px)).
    rewrite IH. by replace (S i + n) with (i + S n) by lia.
Qed.

Lemma grow_steps_app adj mask (a : nat) :
  ∀ i b px,
    grow_steps adj mask i (a + b) px
    = grow_steps adj mask (i + a) b (grow_steps adj mask i a px).
Proof.
  induction a as [|a IH]; intros i b px; simpl.
  - by rewrite Nat.add_0_r.
  - rewrite IH. by replace (S i + a) with (i + S a) by lia.
Qed.

Lemma grow_steps_keeps adj mask (n : nat) :
  ∀ i px p v,
    px !! p = Some v → v ≠ 0%N → grow_steps adj mask i n px !! p = Some v.
Proof.
  induction n as [|n IH]; intros i px p v Hp Hv; simpl; [done|].
  apply IH; [|done]. by apply grow_step_keeps.
Qed.

(** An array that keeps every label of another one has fewer background
    pixels, unless it is the same array. *)
Lemma background_count_grows (l : list N) :
  ∀ l',
    length l' = length l →
    (∀ p v, l !! p = Some v → v ≠ 0%N → l' !! p = Some v) →
    background_count l' ≤ background_count l
    ∧ (l' ≠ l → background_count l' < background_count l).
Proof.
  unfold background_count.
  induction l as [|x l IH]; intros [|y l'] Hlen Hkeep; simpl in Hlen;
    try done; try lia.
  destruct (IH l') as [Hle Hlt]; [lia| |].
  { intros p v Hp Hv. by apply (Hkeep (S p)). }
  rewrite !filter_cons.
  destruct (decide (x = 0%N)) as [->|Hx].
  - destruct (decide (y = 0%N)) as [->|Hy]; simpl.
    + split; [lia|]. intros Hne.
      assert (l' ≠ l) by congruence. specialize (Hlt ltac:(done)). lia.
    + split; lia.
  - assert (y = x) as -> by (specialize (Hkeep 0 x eq_refl Hx); by simplify_eq/=).
    destruct (decide (x = 0%N)); [done|]. split; [done|].
    intros Hne. apply Hlt. congruence.
Qed.

Lemma grow_step_progress adj mask (px : list N) :
  background_count (grow_step adj mask px) ≤ background_count px
  ∧ (grow_step adj mask px ≠ px →
     background_count (grow_step adj mask px) < background_count px).
Proof.
  apply background_count_grows; [apply length_grow_step|].
  intros p v. apply grow_step_keeps.
Qed.

Section FixedPoint.

Variable adj : nat → nat → nat → bool.
Variable mask : option (list bool).
Hypothesis adj_alternates : ∀ i, adj (S (S i)) = adj i.

Lemma stable_forever (n : nat) :
  ∀ j px, stable adj mask j px → grow_steps adj mask j n px = px.
Proof.
  induction n as [|n IH]; intros j px [H1 H2]; simpl; [done|].
  rewrite H1. apply IH. split; [done|]. by rewrite adj_alternates.
Qed.

(** With enough fuel the growth runs until the array is stable. *)
Lemma grow_until_stable_spec (fuel : nat) :
  ∀ i px,
    2 * background_count px + 1 ≤ fuel
    ∨ (2 * background_count px ≤ fuel ∧ grow_step (adj i) mask px ≠ px) →
    ∃ k, grow_until_stable adj mask fuel i px = grow_steps adj mask i k px
         ∧ stable adj mask (i + k) (grow_steps adj mask i k px).
Proof.
  induction fuel as [|fuel IH]; intros i px Hfuel.
  - destruct Hfuel as [?|[Hz Hne]]; [lia|].
    destruct (grow_step_progress (adj i) mask px) as [_ Hlt].
    specialize (Hlt Hne). lia.
  - cbn [grow_until_stable].
    destruct (decide (grow_step (adj i) mask px = px)) as [Heq|Hne].
    + rewrite (bool_decide_eq_true_2 _ Heq). cbn [andb].
      destruct (decide (grow_step (adj (S i)) mask px = px)) as [Heq'|Hne'].
      * rewrite (bool_decide_eq_true_2 _ Heq').
        exists 0. rewrite Nat.add_0_r. by split.
      * rewrite (bool_decide_eq_false_2 _ Hne'). rewrite Heq.
        destruct (IH (S i) px) as (k & Hk & Hst).
        { right. split; [|done]. destruct Hfuel as [?|[_ ?]]; [lia|done]. }
        exists (S k). cbn [grow_steps]. rewrite Heq.
        split; [done|]. by replace (i + S k) with (S i + k) by lia.
    + rewrite (bool_decide_eq_false_2 _ Hne). cbn [andb].
      destruct (grow_step_progress (adj i) mask px) as [_ Hlt].
      specialize (Hlt Hne).
      destruct (IH (S i) (grow_step (adj i) mask px)) as (k & Hk & Hst).
      { left. destruct Hfuel as [?|[? _]]; lia. }
      exists (S k). cbn [grow_steps].
      split; [done|]. by replace (i + S k) with (S i + k) by lia.
Qed.

(** The result of the growth to the fixed point holds every label of the
    result of any number of steps. *)
Lemma grow_until_stable_largest (px : list N) (n : nat) (p : nat) (v : N) :
  grow_steps adj mask 0 n px !! p = Some v → v ≠ 0%N →
  grow_until_stable adj mask (2 * length px + 1) 0 px !! p = Some v.
Proof.
  intros Hp Hv.
  destruct (grow_until_stable_spec (2 * length px + 1) 0 px) as (k & -> & Hst).
  { left. unfold background_count. pose proof (length_filter (λ v, v = 0%N) px).
    lia. }
  destruct (decide (n ≤ k)) as [Hle|Hgt].
  - replace k with (n + (k - n)) by lia. rewrite grow_steps_app.
    by apply grow_steps_keeps.
  - replace n with (k + (n - k)) in Hp by lia.
    rewrite grow_steps_app in Hp. by rewrite stable_forever in Hp.
Qed.

End FixedPoint.

Lemma connectivity_at_alternates (connectivity : Z) (nD i : nat) :
  connectivity_at connectivity nD (S (S i)) = connectivity_at connectivity nD i.
Proof. done. Qed.

(** C6 (as stated) fails at [n = 0], where [iterations = 0] asks for growth
    up to the fixed point: on a line of 4 pixels with one label, the result
    for [iterations = 0] is fully labelled, the result for
    [iterations = 1] is not. *)
Lemma GrowRegions_zero_iterations_not_below_one :
  let label := {| Sizes := [4]; Pixels := [1; 0; 0; 0]%N |} in
  GrowRegions label None 1 0
  = Ok {| Sizes := [4]; Pixels := [1; 1; 1; 1]%N |}
  ∧ GrowRegions label None 1 1
    = Ok {| Sizes := [4]; Pixels := [1; 1; 0; 0]%N |}
  ∧ ¬ (∀ out0 out1,
         GrowRegions label None 1 0 = Ok out0 →
         GrowRegions label None 1 1 = Ok out1 →
         ∀ p v, Pixels out0 !! p = Some v → v ≠ 0%N →
                ∃ w, Pixels out1 !! p = Some w ∧ w ≠ 0%N).
Proof.
  split; [reflexivity|]. split; [reflexivity|].
  intros H.
  destruct (H _ _ eq_refl eq_refl 2 1%N eq_refl ltac:(done)) as (w & Hw & Hnz).
  vm_compute in Hw. congruence.
Qed.

(** C6 (amended). For every labelled input, mask and connectivity and every
    iteration count [n >= 1] that [GrowRegions] accepts, it also accepts
    [n + 1] and 0 (growth to the fixed point); every pixel that is labelled
    in the result for [n] iterations carries the same label in the result
    for [n + 1] iterations, and every pixel labelled in that one carries the
    same label in the result for [iterations = 0]. *)
Theorem GrowRegions_monotone (label : Image N) (mask : option (Image bool))
    (connectivity : Z) (n : nat) (out_n : Image N) :
  1 ≤ n →
  GrowRegions label mask connectivity n = Ok out_n →
  ∃ out_Sn out_fix,
    GrowRegions label mask connectivity (S n) = Ok out_Sn
    ∧ GrowRegions label mask connectivity 0 = Ok out_fix
    ∧ (∀ p v, Pixels out_n !! p = Some v → v ≠ 0%N →
              Pixels out_Sn !! p = Some v)
    ∧ (∀ p v, Pixels out_Sn !! p = Some v → v ≠ 0%N →
              Pixels out_fix !! p = Some v).
Proof.
  intros Hn. unfold GrowRegions.
  destruct ((connectivity <? 0)%Z && _); [done|].
  destruct (Nat.eqb_spec n 0) as [|_]; [lia|].
  intros [= <-]. eexists _, _. split; [reflexivity|]. split; [reflexivity|].
  cbn [Pixels Nat.eqb]. split.
  - intros p v Hp Hv. rewrite grow_steps_last. by apply grow_step_keeps.
  - intros p v. apply grow_until_stable_largest. intros i.
    by rewrite connectivity_at_alternates.
Qed.

Lemma GrowRegions_monotone_witness :
  ∃ out_Sn out_fix,
    GrowRegions {| Sizes := [7]; Pixels := [1; 0; 0; 0; 0; 0; 2]%N |}
      None 1 2 = Ok out_Sn
    ∧ GrowRegions {| Sizes := [7]; Pixels := [1; 0; 0; 0; 0; 0; 2]%N |}
        None 1 0 = Ok out_fix
    ∧ (∀ p v,
         Pixels {| Sizes := [7]; Pixels := [1; 1; 0; 0; 0; 2; 2]%N |} !! p
         = Some v →
         v ≠ 0%N → Pixels out_Sn !! p = Some v)
    ∧ (∀ p v, Pixels out_Sn !! p = Some v → v ≠ 0%N →
              Pixels out_fix !! p = Some v).
Proof.
  apply (GrowRegions_monotone
           {| Sizes := [7]; Pixels := [1; 0; 0; 0; 0; 0; 2]%N |} None 1 1
           {| Sizes := [7]; Pixels := [1; 1; 0; 0; 0; 2; 2]%N |});
    [lia|reflexivity].
Defined.

(** Growth stops where two labels meet: the pixel between the two regions
    stays background. *)
Example GrowRegions_collision :
  GrowRegions {| Sizes := [7]; Pixels := [1; 0; 0; 0; 0; 0; 2]%N |} None 1 0
  = Ok {| Sizes := [7]; Pixels := [1; 1; 1; 0; 2; 2; 2]%N |}.
Proof. reflexivity. Qed.

End RegionsFacts.

(** * Further properties of the framework *)

Module FrameworkMore.
Import Framework FrameworkFacts.

Local Open Scope N_scope.

(** ** [SingletonExpandedSize] *)

(** The rule succeeds exactly on compatible shapes. *)
Lemma singleton_expand_rule_Ok (s1 s2 r : list N) :
  singleton_expand_rule s1 s2 = Ok r →
  broadcast_compatible s1 s2 = true
  ∧ length r = Nat.max (length s1) (length s2)
  ∧ ∀ i, dim_at r i = expanded_dim (dim_at s1 i) (dim_at s2 i).
Proof.
  intros Hr.
  assert (Hc : broadcast_compatible s1 s2 = true).
  { unfold singleton_expand_rule in Hr. unfold broadcast_compatible.
    by destruct (existsb _ _). }
  split; [done|].
  destruct (singleton_expand_rule_compatible s1 s2 Hc) as (r' & Hr' & ? & ?).
  rewrite Hr in Hr'. injection Hr' as <-. by split.
Qed.

Lemma singleton_expand_rule_incompatible (s1 s2 : list N) :
  broadcast_compatible s1 s2 = false →
  singleton_expand_rule s1 s2 = Throw DIMENSIONS_DONT_MATCH.
Proof.
  unfold singleton_expand_rule, broadcast_compatible.
  by destruct (existsb _ _).
Qed.

Lemma singleton_expand_rule_sym (s1 s2 : list N) :
  singleton_expand_rule s1 s2 = singleton_expand_rule s2 s1.
Proof.
  destruct (broadcast_compatible s1 s2) eqn:Hc.
  - pose proof (broadcast_compatible_sym _ _ Hc) as Hc'.
    destruct (singleton_expand_rule_compatible _ _ Hc) as (r & -> & Hl & Hd).
    destruct (singleton_expand_rule_compatible _ _ Hc') as (r' & -> & Hl' & Hd').
    f_equal. apply shape_eq; [lia|]. intros i. rewrite Hd, Hd'.
    apply broadcast_compatible_dims with (i := i) in Hc.
    revert Hc. unfold dimension_mismatch, expanded_dim.
    destruct (N.eqb_spec (dim_at s1 i) (dim_at s2 i)),
      (N.eqb_spec (dim_at s1 i) 1), (N.eqb_spec (dim_at s2 i) 1);
      simpl; congruence.
  - rewrite singleton_expand_rule_incompatible by done.
    rewrite singleton_expand_rule_incompatible; [done|].
    destruct (broadcast_compatible s2 s1) eqn:Hc'; [|done].
    apply broadcast_compatible_sym in Hc'. congruence.
Qed.

Lemma singleton_expand_rule_same (d : list N) :
  singleton_expand_rule d d = Ok d.
Proof.
  assert (Hc : broadcast_compatible d d = true).
  { apply broadcast_compatible_dims. intros i. unfold dimension_mismatch.
    by rewrite N.eqb_refl. }
  destruct (singleton_expand_rule_compatible _ _ Hc) as (r & -> & Hl & Hd).
  f_equal. apply shape_eq; [lia|]. intros i. rewrite Hd.
  unfold expanded_dim. by destruct (N.eqb_spec (dim_at d i) 1).
Qed.

Lemma singleton_expand_rule_nil_r (s : list N) :
  singleton_expand_rule s [] = Ok s.
Proof.
  assert (Hc : broadcast_compatible s [] = true).
  { apply broadcast_compatible_dims. intros i.
    by rewrite (dim_at_ge [] i), dimension_mismatch_1_r by (simpl; lia). }
  destruct (singleton_expand_rule_compatible _ _ Hc) as (r & -> & Hl & Hd).
  f_equal. apply shape_eq; [simpl in Hl; lia|]. intros i. rewrite Hd.
  by rewrite (dim_at_ge [] i), expanded_dim_1_r by (simpl; lia).
Qed.

Lemma singleton_expand_rule_nil_l (s : list N) :
  singleton_expand_rule [] s = Ok s.
Proof. by rewrite singleton_expand_rule_sym, singleton_expand_rule_nil_r. Qed.

Lemma ComputeBroadcastShape_fold_app (l1 l2 : list (list N)) :
  ∀ acc,
    ComputeBroadcastShape_fold acc (l1 ++ l2)
    = (r ← ComputeBroadcastShape_fold acc l1; ComputeBroadcastShape_fold r l2).
Proof.
  induction l1 as [|s l1 IH]; intros acc; simpl; [done|].
  destruct (singleton_expand_rule acc s) as [acc'|e]; simpl; [apply IH|done].
Qed.

(** X1. Operands of one and the same shape broadcast to that shape: an
    array against itself, or any number of arrays with equal sizes. *)
Theorem SingletonExpandedSize_same_shape (first : Image) (rest : list Image) :
  Forall (fun img => Dimensions img = Dimensions first) rest →
  SingletonExpandedSize (first :: rest) = Ok (Dimensions first).
Proof.
  intros Hall. rewrite SingletonExpandedSize_cons.
  induction Hall as [|img rest Himg _ IH]; simpl; [done|].
  by rewrite Himg, singleton_expand_rule_same.
Qed.

Lemma SingletonExpandedSize_same_shape_witness :
  SingletonExpandedSize
    [ {| Dimensions := [4; 1; 7]; Strides := [1; 4; 4]%Z |};
      {| Dimensions := [4; 1; 7]; Strides := [7; 0; 1]%Z |} ]
  = Ok [4; 1; 7].
Proof.
  apply (SingletonExpandedSize_same_shape
           {| Dimensions := [4; 1; 7]; Strides := [1; 4; 4]%Z |}
           [ {| Dimensions := [4; 1; 7]; Strides := [7; 0; 1]%Z |} ]).
  repeat constructor.
Defined.

(** X2. With two operands the order does not matter: both orders return the
    same shape or both throw. *)
Theorem SingletonExpandedSize_two_sym (A B : Image) :
  SingletonExpandedSize [A; B] = SingletonExpandedSize [B; A].
Proof.
  rewrite !SingletonExpandedSize_cons. simpl.
  by rewrite singleton_expand_rule_sym.
Qed.

(** What a successful fold says about the accumulated shape and about every
    operand that follows. *)
Lemma ComputeBroadcastShape_fold_Ok (rest : list (list N)) :
  ∀ acc r,
    ComputeBroadcastShape_fold acc rest = Ok r →
    length r = max_list (length <$> (acc :: rest))
    ∧ Forall (fun s => ∀ i, dim_at s i = 1 ∨ dim_at s i = dim_at r i)
        (acc :: rest).
Proof.
  induction rest as [|s rest IH]; intros acc r Hr; simpl in Hr.
  - injection Hr as ->. simpl. split; [lia|].
    constructor; [|constructor]. by right.
  - destruct (singleton_expand_rule acc s) as [acc'|e] eqn:Hrule; [|done].
    simpl in Hr.
    destruct (singleton_expand_rule_Ok _ _ _ Hrule) as (Hc & Hl & Hd).
    destruct (IH acc' r Hr) as (Hlen & Hall).
    apply Forall_cons in Hall as [Hacc' Hrest].
    split.
    { simpl in *. lia. }
    assert (Hpair : ∀ i, (dim_at acc i = 1 ∨ dim_at acc i = dim_at r i)
                         ∧ (dim_at s i = 1 ∨ dim_at s i = dim_at r i)).
    { intros i. specialize (Hacc' i). rewrite Hd in Hacc'.
      apply broadcast_compatible_dims with (i := i) in Hc.
      revert Hc Hacc'. unfold dimension_mismatch, expanded_dim.
      destruct (N.eqb_spec (dim_at acc i) (dim_at s i)),
        (N.eqb_spec (dim_at acc i) 1), (N.eqb_spec (dim_at s i) 1);
        simpl; intros; try done; split; try tauto; try (left; congruence);
        destruct Hacc'; try (left; congruence); right; congruence. }
    constructor; [intros i; apply Hpair|].
    constructor; [intros i; apply Hpair|done].
Qed.

Lemma SingletonExpandedSize_Ok (in_ : list Image) (size : list N) :
  SingletonExpandedSize in_ = Ok size →
  length size = max_list (Dimensionality <$> in_)
  ∧ ∀ img, img ∈ in_ →
      ∀ i, dim_at (Dimensions img) i = 1
           ∨ dim_at (Dimensions img) i = dim_at size i.
Proof.
  destruct in_ as [|first rest]; [done|].
  rewrite SingletonExpandedSize_cons. intros Hr.
  destruct (ComputeBroadcastShape_fold_Ok _ _ _ Hr) as (Hlen & Hall).
  split.
  - rewrite Hlen. rewrite !fmap_cons. simpl. f_equal.
    by rewrite <- list_fmap_compose.
  - intros img Himg.
    change (Dimensions first :: map Dimensions rest)
      with (map Dimensions (first :: rest)) in Hall.
    rewrite Forall_forall in Hall. apply Hall.
    change (map Dimensions (first :: rest)) with (Dimensions <$> first :: rest).
    by apply list_elem_of_fmap_2.
Qed.

(** X3. When [SingletonExpandedSize] succeeds, the shape it returns has as
    many dimensions as the operand with the most dimensions, and every
    operand can be expanded to it: each size of each operand (padded with 1)
    is 1 or the size of the result. *)
Theorem SingletonExpandedSize_covers_operands (in_ : list Image) (size : list N) :
  SingletonExpandedSize in_ = Ok size →
  length size = max_list (Dimensionality <$> in_)
  ∧ ∀ img, img ∈ in_ →
      ∀ i, dim_at (Dimensions img) i = 1
           ∨ dim_at (Dimensions img) i = dim_at size i.
Proof. apply SingletonExpandedSize_Ok. Qed.

Lemma SingletonExpandedSize_covers_operands_witness :
  let in_ := [ {| Dimensions := [4; 1]; Strides := [1; 4]%Z |};
               {| Dimensions := [1; 5; 3]; Strides := [1; 1; 5]%Z |} ] in
  length [4; 5; 3] = max_list (Dimensionality <$> in_)
  ∧ ∀ img, img ∈ in_ →
      ∀ i, dim_at (Dimensions img) i = 1
           ∨ dim_at (Dimensions img) i = dim_at [4; 5; 3] i.
Proof.
  intros in_. apply (SingletonExpandedSize_covers_operands in_ [4; 5; 3]).
  reflexivity.
Defined.

(** X4. [SingletonExpandedSize] ends in [OUT_OF_BOUNDS] (it reads [in[0]]
    outside the array) exactly for the empty operand list; and the shape of
    [l1 ++ l2] is the shape of [l2] folded onto the shape of [l1], so a
    mismatch inside [l1] is the outcome whatever follows. *)
Theorem SingletonExpandedSize_app (l1 l2 : list Image) (strides : list Z) :
  (SingletonExpandedSize l1 = Throw OUT_OF_BOUNDS ↔ l1 = [])
  ∧ (l1 ≠ [] →
     SingletonExpandedSize (l1 ++ l2)
     = match SingletonExpandedSize l1 with
       | Ok size =>
           SingletonExpandedSize
             ({| Dimensions := size; Strides := strides |} :: l2)
       | Throw e => Throw e
       end).
Proof.
  split.
  - split; [|by intros ->].
    destruct l1 as [|first rest]; [done|].
    rewrite SingletonExpandedSize_cons. intros Hoob.
    by apply ComputeBroadcastShape_fold_error in Hoob.
  - destruct l1 as [|first rest]; [done|]. intros _.
    rewrite <- app_comm_cons, !SingletonExpandedSize_cons.
    rewrite map_app, ComputeBroadcastShape_fold_app.
    destruct (ComputeBroadcastShape_fold _ _) as [size|e]; simpl; [|done].
    by rewrite SingletonExpandedSize_cons.
Qed.

(** X5. An operand without dimensions (a 0D image) does not change the
    outcome, wherever it stands among the other operands. *)
Theorem SingletonExpandedSize_scalar_operand (l1 l2 : list Image) (scalar : Image) :
  Dimensions scalar = [] → l1 ++ l2 ≠ [] →
  SingletonExpandedSize (l1 ++ scalar :: l2) = SingletonExpandedSize (l1 ++ l2).
Proof.
  intros Hscalar Hne. destruct l1 as [|first rest]; simpl.
  - destruct l2 as [|b l2]; [done|].
    rewrite !SingletonExpandedSize_cons, Hscalar. simpl.
    by rewrite singleton_expand_rule_nil_l.
  - rewrite !SingletonExpandedSize_cons, !map_app, !ComputeBroadcastShape_fold_app.
    destruct (ComputeBroadcastShape_fold _ _) as [size|e]; simpl; [|done].
    by rewrite Hscalar, singleton_expand_rule_nil_r.
Qed.

Lemma SingletonExpandedSize_scalar_operand_witness :
  SingletonExpandedSize
    ([ {| Dimensions := [4; 1]; Strides := [1; 4]%Z |} ]
     ++ {| Dimensions := []; Strides := [] |}
     :: [ {| Dimensions := [1; 5]; Strides := [1; 1]%Z |} ])
  = SingletonExpandedSize
      ([ {| Dimensions := [4; 1]; Strides := [1; 4]%Z |} ]
       ++ [ {| Dimensions := [1; 5]; Strides := [1; 1]%Z |} ]).
Proof.
  apply (SingletonExpandedSize_scalar_operand
           [ {| Dimensions := [4; 1]; Strides := [1; 4]%Z |} ]
           [ {| Dimensions := [1; 5]; Strides := [1; 1]%Z |} ]
           {| Dimensions := []; Strides := [] |}); [reflexivity|discriminate].
Defined.

(** ** [SingletonExpansion] *)

Section Expansion.

Variable singleton_stride : Z.

Lemma imap_same {A} (f : nat → A → A) (l : list A) :
  (∀ i x, l !! i = Some x → f i x = x) → imap f l = l.
Proof.
  intros Hf. apply list_eq. intros i. rewrite list_lookup_imap.
  destruct (l !! i) as [x|] eqn:Hx; simpl; [|done]. f_equal. by apply Hf.
Qed.

Lemma dim_at_lookup (s : list N) i a : s !! i = Some a → dim_at s i = a.
Proof. unfold dim_at. by intros ->. Qed.

(** The loop of [SingletonExpansion] on an image with at least as many
    dimensions as [size]: the first [length size] sizes become those of
    [size], and the stride becomes 0 where the size changed. *)
Lemma SingletonExpansion_loop (size : list N) (img0 : Image) :
  (length size ≤ length (Dimensions img0))%nat →
  ∃ out,
    for_loop 0 (length size)
      (fun ii img =>
         a ← at_index (Dimensions img0) ii;
         b ← at_index size ii;
         if negb (a =? b) then Ok (ExpandSingletonDimension img ii b)
         else Ok img) img0 = Ok out
    ∧ Dimensions out
      = imap (fun i d => if decide (i < length size)%nat
                         then dim_at size i else d) (Dimensions img0)
    ∧ Strides out
      = imap (fun i s =>
                if decide ((i < length size)%nat
                           ∧ dim_at (Dimensions img0) i ≠ dim_at size i)
                then 0%Z else s) (Strides img0).
Proof.
  intros Hlen. unfold for_loop. rewrite Nat.sub_0_r.
  set (P := fun (k : nat) (img : Image) =>
    (k ≤ length size)%nat
    ∧ Dimensions img
      = imap (fun i d => if decide (i < k)%nat then dim_at size i else d)
          (Dimensions img0)
    ∧ Strides img
      = imap (fun i s =>
                if decide ((i < k)%nat
                           ∧ dim_at (Dimensions img0) i ≠ dim_at size i)
                then 0%Z else s) (Strides img0)).
  destruct (for_loop_n_invariant P
              (fun ii img =>
                 a ← at_index (Dimensions img0) ii;
                 b ← at_index size ii;
                 if negb (a =? b) then Ok (ExpandSingletonDimension img ii b)
                 else Ok img)
              (length size) 0%nat img0) as (out & Hout & _ & Hd & Hs).
  - split; [lia|]. split; symmetry; apply imap_same; intros i x _.
    + by destruct (decide (i < 0)%nat); [lia|].
    + by destruct (decide _) as [[? _]|]; [lia|].
  - intros k img Hk (_ & Hd & Hs).
    destruct (at_index_lt (Dimensions img0) k ltac:(lia)) as (a & Ha & ->).
    destruct (at_index_lt size k ltac:(lia)) as (b & Hb & ->).
    pose proof (dim_at_lookup _ _ _ Ha) as Ha'.
    pose proof (dim_at_lookup _ _ _ Hb) as Hb'.
    cbn [mbind Result_bind].
    destruct (N.eqb_spec a b) as [Hab|Hab]; cbn [negb]; eexists; (split; [done|]).
    + split; [lia|]. split.
      * rewrite Hd. apply imap_ext. intros i d Hi.
        destruct (decide (i < k)%nat), (decide (i < S k)%nat);
          try done; try lia.
        assert (i = k) as -> by lia. rewrite Hb'. congruence.
      * rewrite Hs. apply imap_ext. intros i z Hi.
        destruct (decide ((i < k)%nat ∧ _)) as [[? ?]|Hn],
          (decide ((i < S k)%nat ∧ _)) as [[? ?]|Hn']; try done.
        -- exfalso. apply Hn'. split; [lia|done].
        -- exfalso. assert (i = k) as -> by (destruct (decide (i = k)); [done|];
             exfalso; apply Hn; split; [lia|done]). congruence.
    + split; [lia|]. unfold ExpandSingletonDimension. cbn [Dimensions Strides].
      split.
      * rewrite Hd. apply list_eq. intros i.
        rewrite list_lookup_insert, length_imap, !list_lookup_imap.
        destruct (decide (k = i ∧ (k < length (Dimensions img0))%nat))
          as [[<- _]|Hn].
        -- rewrite Ha. simpl. destruct (decide (k < S k)%nat); [|lia].
           by rewrite Hb'.
        -- destruct (Dimensions img0 !! i) as [d|] eqn:Hi; simpl; [|done].
           f_equal.
           apply lookup_lt_Some in Hi.
           destruct (decide (i < k)%nat), (decide (i < S k)%nat);
             try done; lia.
      * rewrite Hs. apply list_eq. intros i.
        rewrite list_lookup_insert, length_imap, !list_lookup_imap.
        destruct (decide (k = i ∧ (k < length (Strides img0))%nat))
          as [[<- Hlt]|Hn].
        -- destruct (lookup_lt_is_Some_2 _ _ Hlt) as [z ->]. simpl.
           destruct (decide ((k < S k)%nat ∧ _)) as [|Hn]; [done|].
           exfalso. apply Hn. split; [lia|congruence].
        -- destruct (Strides img0 !! i) as [z|] eqn:Hi; simpl; [|done].
           f_equal.
           destruct (decide ((i < k)%nat ∧ _)) as [[? ?]|Hn1],
             (decide ((i < S k)%nat ∧ _)) as [[? ?]|Hn2]; try done.
           ++ exfalso. apply Hn2. split; [lia|done].
           ++ exfalso. apply Hn. apply lookup_lt_Some in Hi.
              assert (i = k) as -> by (destruct (decide (i = k)); [done|];
                exfalso; apply Hn1; split; [lia|done]). done.
  - exists out. by rewrite Nat.add_0_l in Hd, Hs.
Qed.

Lemma SingletonExpansion_spec (in_ : Image) (size : list N) :
  ∃ out,
    SingletonExpansion singleton_stride in_ size = Ok out
    ∧ (∀ i, Dimensions out !! i
            = if decide (i < length size)%nat then size !! i
              else Dimensions in_ !! i)
    ∧ (length (Strides in_) = length (Dimensions in_) →
       length (Strides out) = length (Dimensions out))
    ∧ (∀ i z, Strides in_ !! i = Some z →
         Strides out !! i
         = Some (if decide ((i < length size)%nat
                            ∧ dim_at (Dimensions in_) i ≠ dim_at size i)
                 then 0%Z else z)).
Proof.
  unfold SingletonExpansion.
  set (in0 := if (Dimensionality in_ <? length size)%nat
              then ExpandDimensionality singleton_stride in_ (length size)
              else in_).
  assert (Hlen0 : (length size ≤ length (Dimensions in0))%nat).
  { unfold in0, Dimensionality.
    destruct (Nat.ltb_spec (length (Dimensions in_)) (length size)); [|done].
    cbn [ExpandDimensionality Dimensions].
    rewrite length_app, length_replicate. lia. }
  assert (Hdim0 : ∀ i, dim_at (Dimensions in0) i = dim_at (Dimensions in_) i).
  { intros i. unfold in0, Dimensionality.
    destruct (Nat.ltb_spec (length (Dimensions in_)) (length size)); [|done].
    cbn [ExpandDimensionality Dimensions]. unfold dim_at.
    destruct (decide (i < length (Dimensions in_))%nat).
    - by rewrite lookup_app_l.
    - rewrite lookup_app_r, (lookup_ge_None_2 (Dimensions in_)) by lia.
      destruct (replicate _ _ !! _) as [x|] eqn:Hx; [|done].
      by apply lookup_replicate in Hx as [-> _]. }
  assert (Hbeyond : ∀ i, (length size ≤ i)%nat →
            Dimensions in0 !! i = Dimensions in_ !! i).
  { intros i Hi. unfold in0, Dimensionality.
    destruct (Nat.ltb_spec (length (Dimensions in_)) (length size)); [|done].
    cbn [ExpandDimensionality Dimensions].
    rewrite !lookup_ge_None_2; [done|lia|].
    rewrite length_app, length_replicate. lia. }
  assert (Hst0 : ∀ i z, Strides in_ !! i = Some z → Strides in0 !! i = Some z).
  { intros i z Hz. unfold in0.
    destruct (_ <? _)%nat; [|done].
    cbn [ExpandDimensionality Strides]. by apply lookup_app_l_Some. }
  assert (Hstlen : length (Strides in_) = length (Dimensions in_) →
            length (Strides in0) = length (Dimensions in0)).
  { intros Heq. unfold in0. destruct (_ <? _)%nat; [|done].
    cbn [ExpandDimensionality Strides Dimensions].
    rewrite !length_app, !length_replicate. lia. }
  destruct (SingletonExpansion_loop size in0 Hlen0) as (out & -> & Hd & Hs).
  exists out. split; [done|]. split_and!.
  - intros i. rewrite Hd, list_lookup_imap.
    destruct (decide (i < length size)%nat) as [Hi|Hi].
    + destruct (lookup_lt_is_Some_2 (Dimensions in0) i ltac:(lia)) as [d ->].
      destruct (lookup_lt_is_Some_2 size i Hi) as [b Hb].
      simpl. by rewrite Hb, (dim_at_lookup _ _ _ Hb).
    + rewrite <- Hbeyond by lia. by destruct (Dimensions in0 !! i).
  - intros Heq. rewrite Hd, Hs, !length_imap. by apply Hstlen.
  - intros i z Hz. rewrite Hs, list_lookup_imap, (Hst0 i z Hz). simpl.
    f_equal. rewrite Hdim0. done.
Qed.

(** Sizes that can be expanded, pointwise. *)
Lemma expandable_to_lookup (dims size : list N) :
  expandable_to dims size = true ↔
  ∀ i a b, dims !! i = Some a → size !! i = Some b → a = b ∨ a = 1.
Proof.
  unfold expandable_to. rewrite forallb_forall. split.
  - intros Hall i a b Ha Hb.
    specialize (Hall (a, b)). simpl in Hall.
    destruct (N.eqb_spec a b), (N.eqb_spec a 1); auto.
    exfalso. assert (false = true); [|done]. apply Hall.
    apply list_elem_of_In, list_elem_of_lookup. exists i.
    by rewrite lookup_zip_with, Ha, Hb.
  - intros Hall [a b] Hin. simpl.
    apply list_elem_of_In, list_elem_of_lookup in Hin as [i Hi].
    rewrite lookup_zip_with in Hi.
    destruct (dims !! i) as [a'|] eqn:Ha; [|done].
    destruct (size !! i) as [b'|] eqn:Hb; [|done].
    simpl in Hi. injection Hi as -> ->.
    destruct (Hall i a b Ha Hb) as [->| ->].
    + by rewrite N.eqb_refl.
    + by rewrite orb_true_r.
Qed.

Lemma SingletonExpansion_expandable (in_ : Image) (size : list N) :
  (∀ i a b, Dimensions in_ !! i = Some a → size !! i = Some b →
            a = b ∨ a = 1) →
  length (Strides in_) = length (Dimensions in_) →
  ∃ out,
    SingletonExpansion singleton_stride in_ size = Ok out
    ∧ Dimensions out = size ++ drop (length size) (Dimensions in_)
    ∧ length (Strides out) = length (Dimensions out)
    ∧ ∀ i, (i < Dimensionality in_)%nat →
        (extent out i = extent in_ i ∧ stride out i = stride in_ i)
        ∨ (extent in_ i = 1 ∧ stride out i = 0%Z).
Proof.
  intros Hexp Hinv.
  destruct (SingletonExpansion_spec in_ size) as (out & Hout & Hd & Hlen & Hs).
  exists out. split; [done|]. split_and!.
  - apply list_eq. intros i. rewrite Hd.
    destruct (decide (i < length size)%nat).
    + by rewrite lookup_app_l.
    + rewrite lookup_app_r, lookup_drop by lia. f_equal. lia.
  - by apply Hlen.
  - intros i Hi. unfold Dimensionality in Hi.
    destruct (lookup_lt_is_Some_2 (Dimensions in_) i Hi) as [a Ha].
    destruct (lookup_lt_is_Some_2 (Strides in_) i ltac:(lia)) as [z Hz].
    unfold extent, stride. rewrite Hd, (Hs i z Hz), Ha, Hz. simpl.
    rewrite (dim_at_lookup _ _ _ Ha).
    destruct (decide (i < length size)%nat) as [Hlt|Hge].
    + destruct (lookup_lt_is_Some_2 size i Hlt) as [b Hb].
      rewrite Hb, (dim_at_lookup _ _ _ Hb). simpl.
      destruct (decide ((i < length size)%nat ∧ a ≠ b)) as [[_ Hne]|Hn].
      * right. split; [|done]. destruct (Hexp i a b Ha Hb); done.
      * left. split; [|done]. apply dec_stable. intros Hne. apply Hn.
        split; [done|]. congruence.
    + left. split; [done|].
      by destruct (decide _) as [[? _]|].
Qed.

(** X6. For an image with as many strides as sizes whose sizes can be
    expanded to [size], [SingletonExpansion] succeeds; afterwards the first
    sizes of the image are those of [size] (dimensions beyond [size] stay),
    there are still as many strides as sizes, and every dimension of the
    input either keeps its size and stride or had size 1 and now has
    stride 0. *)
Theorem SingletonExpansion_sizes_and_strides (in_ : Image) (size : list N) :
  expandable_to (Dimensions in_) size = true →
  length (Strides in_) = length (Dimensions in_) →
  ∃ out,
    SingletonExpansion singleton_stride in_ size = Ok out
    ∧ Dimensions out = size ++ drop (length size) (Dimensions in_)
    ∧ length (Strides out) = length (Dimensions out)
    ∧ ∀ i, (i < Dimensionality in_)%nat →
        (extent out i = extent in_ i ∧ stride out i = stride in_ i)
        ∨ (extent in_ i = 1 ∧ stride out i = 0%Z).
Proof.
  intros Hexp. apply SingletonExpansion_expandable.
  by apply expandable_to_lookup.
Qed.

(** X7. Every operand of a successful [SingletonExpandedSize] can be
    brought to the shape it returns: [SingletonExpansion] of the operand gives
    exactly that shape, and it only touches dimensions of size 1, whose
    stride becomes 0. *)
Theorem SingletonExpansion_of_operand (in_ : list Image) (size : list N)
    (img : Image) :
  SingletonExpandedSize in_ = Ok size →
  img ∈ in_ →
  length (Strides img) = length (Dimensions img) →
  ∃ out,
    SingletonExpansion singleton_stride img size = Ok out
    ∧ Dimensions out = size
    ∧ length (Strides out) = length size
    ∧ ∀ i, (i < Dimensionality img)%nat →
        (extent out i = extent img i ∧ stride out i = stride img i)
        ∨ (extent img i = 1 ∧ stride out i = 0%Z).
Proof.
  intros Hsize Himg Hinv.
  destruct (SingletonExpandedSize_Ok in_ size Hsize) as (Hlen & Hcover).
  assert (Hle : (Dimensionality img ≤ length size)%nat).
  { rewrite Hlen. apply max_list_elem_of_le. by apply list_elem_of_fmap_2. }
  destruct (SingletonExpansion_expandable img size) as (out & Hout & Hd & Hl & Hs);
    [|done|].
  { intros i a b Ha Hb. specialize (Hcover img Himg i).
    rewrite (dim_at_lookup _ _ _ Ha), (dim_at_lookup _ _ _ Hb) in Hcover.
    tauto. }
  rewrite drop_ge, app_nil_r in Hd by done.
  exists out. rewrite Hl, Hd. done.
Qed.

(** X8. [SingletonExpansion] is idempotent: expanding its result to the
    same shape again changes nothing. *)
Theorem SingletonExpansion_idempotent (in_ out : Image) (size : list N) :
  SingletonExpansion singleton_stride in_ size = Ok out →
  SingletonExpansion singleton_stride out size = Ok out.
Proof.
  intros Hout.
  destruct (SingletonExpansion_spec in_ size) as (out' & Hout' & Hd & _).
  rewrite Hout in Hout'. injection Hout' as <-.
  assert (Hlen : (length size ≤ length (Dimensions out))%nat).
  { destruct (decide (length size = 0)%nat) as [->|Hne]; [lia|].
    apply Nat.nlt_ge. intros Hlt.
    specialize (Hd (length size - 1)%nat).
    destruct (decide (length size - 1 < length size)%nat); [|lia].
    rewrite (lookup_ge_None_2 (Dimensions out)) in Hd by lia.
    symmetry in Hd. apply lookup_ge_None in Hd. lia. }
  assert (Hsame : ∀ i, (i < length size)%nat →
            dim_at (Dimensions out) i = dim_at size i).
  { intros i Hi. unfold dim_at. rewrite Hd. by destruct (decide _). }
  unfold SingletonExpansion, Dimensionality.
  destruct (Nat.ltb_spec (length (Dimensions out)) (length size)); [lia|].
  destruct (SingletonExpansion_loop size out Hlen) as (out2 & -> & Hd2 & Hs2).
  f_equal. destruct out2 as [d2 s2], out as [d s]. simpl in *. f_equal.
  - rewrite Hd2. apply imap_same. intros i x Hx.
    destruct (decide (i < length size)%nat); [|done].
    rewrite <- Hsame by done. by apply dim_at_lookup.
  - rewrite Hs2. apply imap_same. intros i x Hx.
    destruct (decide _) as [[Hi Hne]|]; [|done].
    exfalso. apply Hne. by apply Hsame.
Qed.

End Expansion.

Lemma SingletonExpansion_sizes_and_strides_witness :
  let in_ := {| Dimensions := [4; 1]; Strides := [1; 4]%Z |} in
  ∃ out,
    SingletonExpansion 1 in_ [4; 5; 3] = Ok out
    ∧ Dimensions out = [4; 5; 3] ++ drop 3 (Dimensions in_)
    ∧ length (Strides out) = length (Dimensions out)
    ∧ ∀ i, (i < Dimensionality in_)%nat →
        (extent out i = extent in_ i ∧ stride out i = stride in_ i)
        ∨ (extent in_ i = 1 ∧ stride out i = 0%Z).
Proof.
  apply (SingletonExpansion_sizes_and_strides 1
           {| Dimensions := [4; 1]; Strides := [1; 4]%Z |} [4; 5; 3]);
    reflexivity.
Defined.

Lemma SingletonExpansion_of_operand_witness :
  let img := {| Dimensions := [1; 5; 3]; Strides := [1; 1; 5]%Z |} in
  ∃ out,
    SingletonExpansion 1 img [4; 5; 3] = Ok out
    ∧ Dimensions out = [4; 5; 3]
    ∧ length (Strides out) = length [4; 5; 3]
    ∧ ∀ i, (i < Dimensionality img)%nat →
        (extent out i = extent img i ∧ stride out i = stride img i)
        ∨ (extent img i = 1 ∧ stride out i = 0%Z).
Proof.
  apply (SingletonExpansion_of_operand 1
           [ {| Dimensions := [4; 1]; Strides := [1; 4]%Z |};
             {| Dimensions := [1; 5; 3]; Strides := [1; 1; 5]%Z |} ]
           [4; 5; 3]
           {| Dimensions := [1; 5; 3]; Strides := [1; 1; 5]%Z |});
    [reflexivity| |reflexivity].
  apply list_elem_of_further, list_elem_of_here.
Defined.

Lemma SingletonExpansion_idempotent_witness :
  SingletonExpansion 1
    {| Dimensions := [4; 5; 3]; Strides := [1; 0; 0]%Z |} [4; 5; 3]
  = Ok {| Dimensions := [4; 5; 3]; Strides := [1; 0; 0]%Z |}.
Proof.
  apply (SingletonExpansion_idempotent 1
           {| Dimensions := [4; 1]; Strides := [1; 4]%Z |}
           {| Dimensions := [4; 5; 3]; Strides := [1; 0; 0]%Z |} [4; 5; 3]).
  reflexivity.
Defined.

(** ** [OptimalProcessingDim] *)

(** X9. When no extent exceeds [SMALL_IMAGE], [OptimalProcessingDim] does
    not look at the strides at all: it returns the first dimension of
    largest extent, so two images with the same sizes get the same
    dimension whatever their strides are. *)
Theorem OptimalProcessingDim_small_image (img img' : Image) :
  length (Strides img) = length (Dimensions img) →
  length (Strides img') = length (Dimensions img') →
  Dimensions img' = Dimensions img →
  forallb (fun d => d <=? SMALL_IMAGE) (Dimensions img) = true →
  (0 < Dimensionality img)%nat →
  ∃ r, OptimalProcessingDim img = Ok r
       ∧ OptimalProcessingDim img' = Ok r
       ∧ (∀ j, (j < Dimensionality img)%nat → extent img j ≤ extent img r)
       ∧ (∀ j, (j < r)%nat → extent img j < extent img r).
Proof.
  unfold Dimensionality. intros Hlen Hlen' Hdims Hsmall Hpos.
  rewrite forallb_forall in Hsmall.
  assert (Hext : ∀ j, (j < length (Dimensions img))%nat →
            extent img j ≤ SMALL_IMAGE).
  { intros j Hj. unfold extent.
    destruct (lookup_lt_is_Some_2 _ _ Hj) as [d Hd]. rewrite Hd. simpl.
    apply N.leb_le, Hsmall, list_elem_of_In. by eapply list_elem_of_lookup_2. }
  assert (Hext' : ∀ j, extent img' j = extent img j).
  { intros j. unfold extent. by rewrite Hdims. }
  destruct (OptimalProcessingDim_scan img Hlen ltac:(lia))
    as (r & Hr & Hlt & Hinv).
  destruct (OptimalProcessingDim_scan img' Hlen' ltac:(rewrite Hlen', Hdims; lia))
    as (r' & Hr' & Hlt' & Hinv').
  rewrite Hlen in *. rewrite Hlen', Hdims in *.
  destruct Hinv as [(Hbig & _)|(_ & Hmax & Hfirst)].
  { specialize (Hext r Hlt). lia. }
  destruct Hinv' as [(Hbig & _)|(_ & Hmax' & Hfirst')].
  { rewrite Hext' in Hbig. specialize (Hext r' Hlt'). lia. }
  exists r. split; [done|]. split; [|by split].
  rewrite Hr'. do 2 f_equal.
  destruct (Nat.lt_trichotomy r r') as [Hrr|[->|Hrr]]; [|done|].
  - specialize (Hfirst' r Hrr). specialize (Hmax r' Hlt').
    rewrite !Hext' in Hfirst'. lia.
  - specialize (Hfirst r' Hrr). specialize (Hmax' r Hlt).
    rewrite !Hext' in Hmax'. lia.
Qed.

Lemma OptimalProcessingDim_small_image_witness :
  let img := {| Dimensions := [10; 40; 40]; Strides := [1; 10; 400]%Z |} in
  let img' := {| Dimensions := [10; 40; 40]; Strides := [1600; -1; 40]%Z |} in
  ∃ r, OptimalProcessingDim img = Ok r
       ∧ OptimalProcessingDim img' = Ok r
       ∧ (∀ j, (j < Dimensionality img)%nat → extent img j ≤ extent img r)
       ∧ (∀ j, (j < r)%nat → extent img j < extent img r).
Proof.
  apply (OptimalProcessingDim_small_image
           {| Dimensions := [10; 40; 40]; Strides := [1; 10; 400]%Z |}
           {| Dimensions := [10; 40; 40]; Strides := [1600; -1; 40]%Z |});
    try reflexivity.
  vm_compute. lia.
Defined.

(** X10. A dimension made by singleton expansion (stride 0) whose extent
    exceeds [SMALL_IMAGE] wins over every dimension of positive stride: if
    no stride is negative and some dimension of extent above [SMALL_IMAGE]
    has stride 0, the dimension returned has stride 0 too. *)
Theorem OptimalProcessingDim_prefers_zero_stride (img : Image) (j : nat) :
  length (Strides img) = length (Dimensions img) →
  forallb (fun z => (0 <=? z)%Z) (Strides img) = true →
  Strides img !! j = Some 0%Z →
  SMALL_IMAGE < extent img j →
  ∃ r, OptimalProcessingDim img = Ok r
       ∧ stride img r = 0%Z ∧ SMALL_IMAGE < extent img r.
Proof.
  intros Hlen Hnonneg Hj Hbig.
  pose proof (lookup_lt_Some _ _ _ Hj) as Hjlt.
  destruct (OptimalProcessingDim_scan img Hlen ltac:(lia))
    as (r & Hr & Hlt & Hinv).
  exists r. split; [done|].
  destruct Hinv as [(Hrbig & Hmin & _)|(Hsmall & _)].
  - split; [|done]. specialize (Hmin j Hjlt Hbig).
    unfold stride in *. rewrite Hj in Hmin. simpl in Hmin.
    destruct (lookup_lt_is_Some_2 (Strides img) r Hlt) as [z Hz].
    rewrite Hz in *. simpl in *.
    rewrite forallb_forall in Hnonneg.
    assert ((0 <=? z)%Z = true) as Hz0.
    { apply Hnonneg, list_elem_of_In. by eapply list_elem_of_lookup_2. }
    apply Z.leb_le in Hz0. lia.
  - specialize (Hsmall j Hjlt). lia.
Qed.

Lemma OptimalProcessingDim_prefers_zero_stride_witness :
  let img := {| Dimensions := [100; 200; 300]; Strides := [1; 0; 100]%Z |} in
  ∃ r, OptimalProcessingDim img = Ok r
       ∧ stride img r = 0%Z ∧ SMALL_IMAGE < extent img r.
Proof.
  apply (OptimalProcessingDim_prefers_zero_stride
           {| Dimensions := [100; 200; 300]; Strides := [1; 0; 100]%Z |} 1);
    reflexivity.
Defined.

End FrameworkMore.

(** * Further properties of the GreyDimensionsCube feature *)

Module FeatureMore.
Import Feature FeatureFacts.

Section GreyDimensionsCube.

Context {Units : Type} `{EqDecision Units}.
Variable Units_Pixel : Units.
Variable Units_default : Units.
Variable Units_IsPhysical : Units → bool.
Context {dfloat : Type}.

Abbreviation Image := (@Image Units dfloat).
Abbreviation ValueInformation := (@ValueInformation Units).
Abbreviation Initialize :=
  (@Initialize Units _ Units_Pixel Units_default Units_IsPhysical dfloat).

(** [Initialize] succeeds on a scalar grey image and a label image with 2
    or 3 dimensions. *)
Lemma Initialize_succeeds (self : FeatureGreyDimensionsCube)
    (label grey : Image) (nObjects : nat) :
  IsScalar grey = true → 2 ≤ Dimensionality label ≤ 3 →
  ∃ out, Initialize self label grey nObjects
         = ({| inertiaIndex_ := -1; nD_ := Dimensionality label |}, Ok out).
Proof.
  intros Hscalar Hdim. unfold Feature.Initialize. cbn [nD_].
  rewrite Hscalar. cbn [negb].
  destruct (Nat.ltb_spec (Dimensionality label) 2); [lia|].
  destruct (Nat.ltb_spec 3 (Dimensionality label)); [lia|]. cbn [orb].
  unfold for_loop. rewrite Nat.sub_0_r.
  pose proof (fill_loop
    (fun ii => {| vi_name := "axis" +:+ to_string ii;
                  vi_units :=
                    if (if IsPhysical Units_IsPhysical (PixelSize label 0)
                        then sameUnits_loop label (PixelSize label 0) 1
                               (Dimensionality label - 1)
                        else IsPhysical Units_IsPhysical (PixelSize label 0))
                    then units (PixelSize label 0) else Units_Pixel |})
    (replicate (Dimensionality label)
       {| vi_name := EmptyString; vi_units := Units_default |}) []) as Hfill.
  rewrite length_replicate in Hfill. simpl in Hfill. rewrite Hfill.
  by eexists.
Qed.

(** X11. [Initialize] tests the grey image first: a grey image that is not
    scalar gives [NOT_SCALAR] and leaves the object as it was.  With a
    scalar grey image, a label image that has not 2 or 3 dimensions gives
    [DIMENSIONALITY_NOT_SUPPORTED], but the object has already taken the
    rejected dimensionality in [nD_].  In every other case [Initialize]
    succeeds, and the object holds the dimensionality of the label image and
    [inertiaIndex_ = -1]. *)
Theorem Initialize_outcomes (self : FeatureGreyDimensionsCube)
    (label grey : Image) (nObjects : nat) :
  (IsScalar grey = false →
   Initialize self label grey nObjects = (self, Throw NOT_SCALAR))
  ∧ (IsScalar grey = true → ¬ 2 ≤ Dimensionality label ≤ 3 →
     Initialize self label grey nObjects
     = ({| inertiaIndex_ := inertiaIndex_ self;
           nD_ := Dimensionality label |},
        Throw DIMENSIONALITY_NOT_SUPPORTED))
  ∧ (IsScalar grey = true → 2 ≤ Dimensionality label ≤ 3 →
     ∃ out, Initialize self label grey nObjects
            = ({| inertiaIndex_ := -1; nD_ := Dimensionality label |},
               Ok out)).
Proof.
  split_and!.
  - intros Hscalar. unfold Feature.Initialize. by rewrite Hscalar.
  - intros Hscalar Hdim. unfold Feature.Initialize. cbn [nD_].
    rewrite Hscalar. cbn [negb].
    destruct (Nat.ltb_spec (Dimensionality label) 2); [done|].
    destruct (Nat.ltb_spec 3 (Dimensionality label)); [done|lia].
  - apply Initialize_succeeds.
Qed.

(** X12. The entries that [Initialize] returns are named "axis0", "axis1"
    and, for a 3D label image, "axis2", in this order, and all of them carry
    the same units. *)
Theorem Initialize_names (self self' : FeatureGreyDimensionsCube)
    (label grey : Image) (nObjects : nat) (out : list ValueInformation) :
  Initialize self label grey nObjects = (self', Ok out) →
  vi_name <$> out = take (Dimensionality label) ["axis0"; "axis1"; "axis2"]
  ∧ NoDup (vi_name <$> out)
  ∧ ∀ vi vj, vi ∈ out → vj ∈ out → vi_units vi = vi_units vj.
Proof.
  intros Hinit.
  destruct (Initialize_accepted _ _ _ _ _ _ _ _ _ Hinit) as (_ & Hdim & ->).
  assert (Hnames :
    vi_name <$>
      map (fun ii => {| vi_name := "axis" +:+ to_string ii;
                        vi_units :=
                          if axes_share_physical_unit Units_IsPhysical label
                          then units (PixelSize label 0) else Units_Pixel |})
        (seq 0 (Dimensionality label))
    = take (Dimensionality label) ["axis0"; "axis1"; "axis2"]).
  { assert (Dimensionality label = 2 ∨ Dimensionality label = 3) as [->| ->]
      by lia; reflexivity. }
  split; [done|]. split.
  - rewrite Hnames.
    assert (Dimensionality label = 2 ∨ Dimensionality label = 3) as [->| ->]
      by lia; simpl; apply (bool_decide_unpack _); by vm_compute.
  - intros vi vj Hvi Hvj.
    apply list_elem_of_In, in_map_iff in Hvi as (i & <- & _).
    apply list_elem_of_In, in_map_iff in Hvj as (j & <- & _).
    done.
Qed.

End GreyDimensionsCube.

Lemma Initialize_names_witness :
  let label := {| Dimensionality := 2; IsScalar := true;
                  PixelSize := fun _ => {| magnitude := 2%Z; units := "um" |} |} in
  let out := [ {| vi_name := "axis0"; vi_units := "px" |};
               {| vi_name := "axis1"; vi_units := "px" |} ] in
  vi_name <$> out = take (Dimensionality label) ["axis0"; "axis1"; "axis2"]
  ∧ NoDup (vi_name <$> out)
  ∧ ∀ vi vj, vi ∈ out → vj ∈ out → vi_units vi = vi_units vj.
Proof.
  intros label out.
  apply (Initialize_names "px" "1" (fun _ => false)
           {| inertiaIndex_ := 7; nD_ := 0 |}
           {| inertiaIndex_ := -1; nD_ := 2 |}
           label label 5 out).
  reflexivity.
Defined.

End FeatureMore.

(** * Further properties of the labelled regions *)

Module RegionsMore.
Import Regions RegionsFacts.

(** ** [GetObjectLabels] on a view *)

(** Lists with the same elements have the same sorted list of distinct
    elements. *)
Lemma sorted_distinct_ext (keep : N → bool) (l1 l2 : list N) :
  (∀ v, v ∈ l1 ↔ v ∈ l2) →
  merge_sort N.le (remove_dups (filter (fun v => keep v) l1))
  = merge_sort N.le (remove_dups (filter (fun v => keep v) l2)).
Proof.
  intros Hsame.
  apply (StronglySorted_unique N.le).
  - apply StronglySorted_merge_sort; apply _.
  - apply StronglySorted_merge_sort; apply _.
  - rewrite !merge_sort_Permutation.
    apply NoDup_Permutation; [apply NoDup_remove_dups..|].
    intros v. rewrite !elem_of_remove_dups, !list_elem_of_filter.
    by rewrite Hsame.
Qed.

(** X13. The two paths of [GetObjectLabels] on a view agree: a view by
    indices (whose pixels are copied to a new image) has the same labels as
    the view with the mask that selects exactly the pixels at these
    indices. *)
Theorem GetObjectLabels_View_indices_as_mask (ref : Image N)
    (offsets : list nat) (include_background : bool) :
  offsets ≠ [] →
  forallb (fun o => o <? length (Pixels ref)) offsets = true →
  GetObjectLabels_View
    {| Reference := ref; Mask := None; Offsets := offsets |}
    include_background
  = GetObjectLabels_View
      {| Reference := ref;
         Mask := Some {| Sizes := Sizes ref;
                         Pixels := map (fun p => bool_decide (p ∈ offsets))
                                     (seq 0 (length (Pixels ref))) |};
         Offsets := [] |}
      include_background.
Proof.
  intros Hne Hrange. rewrite forallb_forall in Hrange.
  unfold GetObjectLabels_View. cbn [Offsets Reference Mask].
  rewrite bool_decide_eq_false_2 by done.
  rewrite (bool_decide_eq_true_2 ([] = [])) by done.
  unfold GetObjectLabels, Image_of_View. cbn [Pixels Offsets Reference].
  apply sorted_distinct_ext. intros v.
  change (map ?f ?l) with (f <$> l).
  rewrite !list_elem_of_fmap. split.
  - intros (o & -> & Ho).
    assert (Hlt : o < length (Pixels ref)).
    { apply Nat.ltb_lt, Hrange. by apply list_elem_of_In. }
    destruct (lookup_lt_is_Some_2 _ _ Hlt) as [x Hx].
    exists (x, true). split; [by rewrite (nth_lookup_Some _ _ _ _ Hx)|].
    apply list_elem_of_filter. split; [done|].
    apply list_elem_of_lookup. exists o.
    rewrite lookup_zip_with, Hx, list_lookup_fmap, lookup_seq_lt by done.
    simpl. by rewrite bool_decide_eq_true_2.
  - intros ([x m] & -> & Hin).
    apply list_elem_of_filter in Hin as [Hm Hin]. simpl in Hm.
    destruct m; [|done].
    apply list_elem_of_lookup in Hin as [o Ho].
    rewrite lookup_zip_with in Ho.
    destruct (Pixels ref !! o) as [x'|] eqn:Hx; [|done]. simpl in Ho.
    rewrite list_lookup_fmap in Ho.
    destruct (seq 0 (length (Pixels ref)) !! o) as [o'|] eqn:Hseq; [|done].
    apply lookup_seq in Hseq as [-> _]. simpl in Ho.
    injection Ho as -> Hmem. apply bool_decide_eq_true in Hmem.
    exists o. split; [|done]. simpl. by rewrite (nth_lookup_Some _ _ _ _ Hx).
Qed.

Lemma GetObjectLabels_View_indices_as_mask_witness :
  let ref := {| Sizes := [6]; Pixels := [7; 0; 3; 7; 12; 3]%N |} in
  GetObjectLabels_View
    {| Reference := ref; Mask := None; Offsets := [4; 0; 4; 1] |} false
  = GetObjectLabels_View
      {| Reference := ref;
         Mask := Some {| Sizes := Sizes ref;
                         Pixels := map (fun p => bool_decide (p ∈ [4; 0; 4; 1]))
                                     (seq 0 (length (Pixels ref))) |};
         Offsets := [] |}
      false.
Proof.
  apply (GetObjectLabels_View_indices_as_mask
           {| Sizes := [6]; Pixels := [7; 0; 3; 7; 12; 3]%N |}
           [4; 0; 4; 1] false); [discriminate|reflexivity].
Defined.

(** ** [Label] *)

(** X14. Without size limits [Label] gives every object one number of its
    own: two labelled pixels carry the same label exactly when a path of
    neighboring foreground pixels (under the connectivity and boundary
    condition given) joins them. *)
Theorem Label_same_label_iff_connected (b : Image bool) (connectivity : nat)
    (bc : list BoundaryCondition) (out : Image N) (count : nat) :
  0 < Dimensionality b → forallb is_supported bc = true →
  Label (Binary b) connectivity 0 0 bc = Ok (out, count) →
  ∀ p q v w,
    Pixels out !! p = Some v → Pixels out !! q = Some w →
    (0 < v)%N → (0 < w)%N →
    (v = w ↔
     rtc (linked (neighbors (Sizes b) connectivity (map is_periodic bc))
            (foreground (Pixels b))) p q).
Proof.
  intros Hdim Hbc. rewrite Label_binary by done. intros [= <- _].
  cbn [Pixels]. intros p q v w Hp Hq Hv Hw.
  apply lookup_labelled in Hp as [_ ->]. apply lookup_labelled in Hq as [_ ->].
  destruct (ConnectedComponents_facts b connectivity bc) as (Hnd & _ & _ & _).
  destruct (ConnectedComponents_spec b connectivity bc) as [Hperm Hcomps].
  rewrite Forall_forall in Hcomps.
  set (comps := ConnectedComponents b connectivity bc) in *.
  set (keep0 := fun c : list nat => size_ok 0 0 (length c)) in *.
  destruct (assign_label_nonzero keep0 comps 1%N p)
    as (i & c & Hi & Hpc & _ & Hpi); [lia|].
  destruct (assign_label_nonzero keep0 comps 1%N q)
    as (j & c' & Hj & Hqc & _ & Hqj); [lia|].
  rewrite Hpi, Hqj.
  pose proof (Hcomps c (list_elem_of_lookup_2 _ _ _ Hi))
    as (_ & _ & Hsub & Hclosed & Hpaths).
  split.
  - intros Hij. assert (i = j) as -> by lia.
    rewrite Hi in Hj. injection Hj as <-.
    eapply linked_mono; [exact Hsub|]. by apply Hpaths.
  - intros Hpath.
    assert (Hq : q ∈ c).
    { eapply (path_stays _ (foreground (Pixels b)) (foreground (Pixels b)) c p q);
        eauto. }
    destruct (decide (i = j)) as [->|Hne]; [done|].
    exfalso. by apply (concat_disjoint comps i j c c' q Hnd Hi Hj Hne).
Qed.

Lemma Label_same_label_iff_connected_witness :
  let b := {| Sizes := [5; 2];
              Pixels := [true; false; true; true; false;
                         false; false; false; true; true] |} in
  (2%N = 2%N ↔
   rtc (linked (neighbors (Sizes b) 1 (map is_periodic []))
          (foreground (Pixels b))) 2 9)
  ∧ (1%N = 2%N ↔
     rtc (linked (neighbors (Sizes b) 1 (map is_periodic []))
            (foreground (Pixels b))) 0 9).
Proof.
  split;
    [ refine (Label_same_label_iff_connected
                {| Sizes := [5; 2];
                   Pixels := [true; false; true; true; false;
                              false; false; false; true; true] |} 1 []
                {| Sizes := [5; 2];
                   Pixels := [1; 0; 2; 2; 0; 0; 0; 0; 2; 2]%N |} 2
                _ _ _ 2 9 2%N 2%N _ _ _ _)
    | refine (Label_same_label_iff_connected
                {| Sizes := [5; 2];
                   Pixels := [true; false; true; true; false;
                              false; false; false; true; true] |} 1 []
                {| Sizes := [5; 2];
                   Pixels := [1; 0; 2; 2; 0; 0; 0; 0; 2; 2]%N |} 2
                _ _ _ 0 9 1%N 2%N _ _ _ _) ];
    try reflexivity; vm_compute; lia.
Defined.

(** ** [SmallObjectsRemove] *)

Lemma object_size_map (f : N → N) (px : list N) (v : N) :
  (∀ x, x ∈ px → (f x =? v)%N = (x =? v)%N) →
  object_size (map f px) v = object_size px v.
Proof.
  unfold object_size. induction px as [|x px IH]; intros Hf; [done|].
  simpl. rewrite !filter_cons, (Hf x) by apply list_elem_of_here.
  destruct (x =? v)%N; simpl; rewrite IH; auto.
  all: intros y Hy; apply Hf; by apply list_elem_of_further.
Qed.

(** X15. On a label image [SmallObjectsRemove] ignores the connectivity
    and keeps the sizes of the image.  Every object with at least
    [threshold] pixels stays, with its label and all its pixels; every pixel
    of an object with fewer pixels becomes background; nothing else is
    labelled in the result.  The operation is idempotent. *)
Theorem SmallObjectsRemove_labeled (l : Image N)
    (threshold connectivity connectivity' : nat) :
  ∃ out,
    SmallObjectsRemove (Labeled l) threshold connectivity = Ok (Labeled out)
    ∧ SmallObjectsRemove (Labeled l) threshold connectivity'
      = Ok (Labeled out)
    ∧ Sizes out = Sizes l
    ∧ length (Pixels out) = length (Pixels l)
    ∧ (∀ p v, Pixels out !! p = Some v → v ≠ 0%N →
              Pixels l !! p = Some v
              ∧ threshold ≤ object_size (Pixels l) v
              ∧ object_size (Pixels out) v = object_size (Pixels l) v)
    ∧ (∀ p v, Pixels l !! p = Some v →
              threshold ≤ object_size (Pixels l) v →
              Pixels out !! p = Some v)
    ∧ (∀ p v, Pixels l !! p = Some v →
              object_size (Pixels l) v < threshold →
              Pixels out !! p = Some 0%N)
    ∧ SmallObjectsRemove (Labeled out) threshold connectivity
      = Ok (Labeled out).
Proof.
  set (f := fun v => if object_size (Pixels l) v <? threshold then 0%N else v).
  exists {| Sizes := Sizes l; Pixels := map f (Pixels l) |}.
  assert (Hsize : ∀ v, v ≠ 0%N → threshold ≤ object_size (Pixels l) v →
            object_size (map f (Pixels l)) v = object_size (Pixels l) v).
  { intros v Hv Hkeep. apply object_size_map. intros x _. unfold f.
    destruct (Nat.ltb_spec (object_size (Pixels l) x) threshold) as [Hlt|Hge].
    - destruct (N.eqb_spec x v) as [->|Hne]; [lia|].
      destruct (N.eqb_spec 0 v); congruence.
    - done. }
  assert (Hlook : ∀ p v, map f (Pixels l) !! p = Some v → v ≠ 0%N →
            Pixels l !! p = Some v ∧ threshold ≤ object_size (Pixels l) v).
  { intros p v Hp Hv. change (map ?g ?k) with (g <$> k) in Hp.
    rewrite list_lookup_fmap in Hp.
    destruct (Pixels l !! p) as [x|] eqn:Hx; [|done]. simpl in Hp.
    injection Hp as <-. unfold f in *.
    destruct (Nat.ltb_spec (object_size (Pixels l) x) threshold); [done|].
    by split. }
  split_and!; try done.
  - cbn [Pixels]. by rewrite length_map.
  - cbn [Pixels]. intros p v Hp Hv.
    destruct (Hlook p v Hp Hv) as [Hl Hkeep]. split_and!; auto.
  - cbn [Pixels]. intros p v Hp Hkeep.
    change (map ?g ?k) with (g <$> k). rewrite list_lookup_fmap, Hp.
    simpl. f_equal. unfold f.
    by destruct (Nat.ltb_spec (object_size (Pixels l) v) threshold); [lia|].
  - cbn [Pixels]. intros p v Hp Hsmall.
    change (map ?g ?k) with (g <$> k). rewrite list_lookup_fmap, Hp.
    simpl. f_equal. unfold f.
    by destruct (Nat.ltb_spec (object_size (Pixels l) v) threshold); [|lia].
  - unfold SmallObjectsRemove. cbn [Sizes Pixels]. do 3 f_equal.
    apply list_eq. intros p.
    change (map ?g (map f (Pixels l))) with (g <$> map f (Pixels l)).
    rewrite list_lookup_fmap.
    destruct (map f (Pixels l) !! p) as [v|] eqn:Hp; [|done]. simpl. f_equal.
    destruct (N.eqb_spec v 0) as [->|Hv]; [by destruct (_ <? _)|].
    destruct (Hlook p v Hp Hv) as [_ Hkeep].
    rewrite (Hsize v Hv Hkeep).
    by destruct (Nat.ltb_spec (object_size (Pixels l) v) threshold); [lia|].
Qed.

(** X16. On a binary image of dimensionality at least 1
    [SmallObjectsRemove] keeps exactly the pixels of the connected
    components with at least [threshold] pixels; it never turns a
    background pixel into foreground. *)
Theorem SmallObjectsRemove_binary_keeps (b : Image bool)
    (threshold connectivity : nat) :
  0 < Dimensionality b →
  ∃ out,
    SmallObjectsRemove (Binary b) threshold connectivity = Ok (Binary out)
    ∧ Sizes out = Sizes b
    ∧ length (Pixels out) = length (Pixels b)
    ∧ (∀ p, Pixels out !! p = Some true ↔
            ∃ c, c ∈ ConnectedComponents b connectivity []
                 ∧ p ∈ c ∧ threshold ≤ length c)
    ∧ (∀ p, Pixels out !! p = Some true → Pixels b !! p = Some true).
Proof.
  intros Hdim. unfold SmallObjectsRemove.
  rewrite Label_binary by done. cbn [mbind Result_bind fst Sizes Pixels].
  eexists. split; [reflexivity|]. cbn [Sizes Pixels].
  assert (Hkept : ∀ p,
    map (λ v : N, negb (v =? 0)%N)
      (map (assign_label (λ c : list nat, size_ok threshold 0 (length c))
              (ConnectedComponents b connectivity []) 1)
         (seq 0 (length (Pixels b)))) !! p = Some true
    ↔ ∃ c, c ∈ ConnectedComponents b connectivity []
           ∧ p ∈ c ∧ threshold ≤ length c).
  { intros p.
    rewrite (binarized_lookup b connectivity [] (size_ok threshold 0) p).
    split; intros (c & Hc & Hp & Hk); exists c; split_and!; try done.
    - unfold size_ok in Hk. cbn [Nat.eqb orb andb] in Hk.
      rewrite andb_true_r in Hk.
      destruct (Nat.eqb_spec threshold 0); [lia|]. by apply Nat.leb_le.
    - unfold size_ok. cbn [Nat.eqb orb andb]. rewrite andb_true_r.
      apply orb_true_iff. right. by apply Nat.leb_le. }
  split_and!; try done.
  - by rewrite !length_map, length_seq.
  - intros p Hp. apply Hkept in Hp as (c & Hc & Hp & _).
    destruct (ConnectedComponents_facts b connectivity []) as (_ & _ & _ & Hfg).
    apply Hfg, elem_of_concat. eauto.
Qed.

Lemma SmallObjectsRemove_binary_keeps_witness :
  let b := {| Sizes := [5; 2];
              Pixels := [true; false; true; true; false;
                         false; false; false; true; true] |} in
  ∃ out,
    SmallObjectsRemove (Binary b) 2 1 = Ok (Binary out)
    ∧ Sizes out = Sizes b
    ∧ length (Pixels out) = length (Pixels b)
    ∧ (∀ p, Pixels out !! p = Some true ↔
            ∃ c, c ∈ ConnectedComponents b 1 [] ∧ p ∈ c ∧ 2 ≤ length c)
    ∧ (∀ p, Pixels out !! p = Some true → Pixels b !! p = Some true).
Proof.
  apply (SmallObjectsRemove_binary_keeps
           {| Sizes := [5; 2];
              Pixels := [true; false; true; true; false;
                         false; false; false; true; true] |} 2 1).
  vm_compute. lia.
Defined.

(** ** [GrowRegions] *)

Lemma lookup_grow_step adj mask (px : list N) (p : nat) (v : N) :
  grow_step adj mask px !! p = Some v →
  ∃ u, px !! p = Some u
       ∧ v = if negb (u =? 0)%N then u
             else if match mask with
                     | None => true
                     | Some m => nth p m false
                     end
             then match positive_labels
                          (map (fun q => nth q px 0%N)
                             (filter (fun q => adj p q) (seq 0 (length px))))
                  with
                  | [w] => w
                  | _ => 0%N
                  end
             else 0%N.
Proof.
  unfold grow_step. change (map ?f ?l) with (f <$> l) at 1.
  rewrite list_lookup_fmap.
  destruct (seq 0 (length px) !! p) as [p'|] eqn:Hseq; [|done].
  apply lookup_seq in Hseq as [-> Hlt]. simpl. intros [= <-].
  destruct (lookup_lt_is_Some_2 px p Hlt) as [u Hu]. exists u.
  split; [done|]. by rewrite (nth_lookup_Some _ _ _ _ Hu).
Qed.

(** Where a growth step puts a label, the pixel was background, the mask
    allows it, and a neighbor carries this label. *)
Lemma grow_step_origin adj mask (px : list N) (p : nat) (v : N) :
  grow_step adj mask px !! p = Some v → v ≠ 0%N →
  px !! p = Some v
  ∨ (px !! p = Some 0%N
     ∧ match mask with
       | None => True
       | Some m => m !! p = Some true
       end
     ∧ ∃ q, adj p q = true ∧ px !! q = Some v).
Proof.
  intros Hp Hv. apply lookup_grow_step in Hp as (u & Hu & ->).
  destruct (N.eqb_spec u 0) as [->|Hu0]; cbn [negb] in *; [|by left].
  right. split; [done|].
  assert (Hmask : match mask with
                  | None => true
                  | Some m => nth p m false
                  end = true).
  { by destruct (match mask with None => true | Some m => nth p m false end). }
  rewrite Hmask in Hv |- *. split.
  { destruct mask as [m|]; [|done]. rewrite nth_lookup in Hmask.
    by destruct (m !! p) as [[]|]. }
  destruct (positive_labels _) as [|w [|? ?]] eqn:Hlabels; try done.
  assert (Hw : w ∈ positive_labels
            (map (fun q => nth q px 0%N)
               (filter (fun q => adj p q) (seq 0 (length px))))).
  { rewrite Hlabels. apply list_elem_of_here. }
  apply elem_of_positive_labels in Hw as [_ Hw].
  change (map ?f ?l) with (f <$> l) in Hw.
  apply list_elem_of_fmap in Hw as (q & -> & Hq).
  apply list_elem_of_filter in Hq as [Hadj Hq].
  apply elem_of_seq in Hq as [_ Hq]. simpl in Hq.
  destruct (lookup_lt_is_Some_2 px q Hq) as [x Hx].
  exists q. rewrite (nth_lookup_Some _ _ _ _ Hx). split; [|done].
  by destruct (adj p q).
Qed.

Lemma grow_steps_origin adj mask (n : nat) :
  ∀ (px : list N) (p : nat) (v : N),
    grow_steps adj mask 0 n px !! p = Some v → v ≠ 0%N →
    v ∈ px
    ∧ (px !! p = Some v
       ∨ (px !! p = Some 0%N
          ∧ match mask with
            | None => True
            | Some m => m !! p = Some true
            end)).
Proof.
  induction n as [|n IH]; intros px p v Hp Hv.
  - simpl in Hp. split; [by eapply list_elem_of_lookup_2|by left].
  - rewrite grow_steps_last in Hp.
    apply grow_step_origin in Hp; [|done].
    destruct Hp as [Hp|(Hp & Hmask & q & _ & Hq)].
    + by apply IH.
    + destruct (IH px q v Hq Hv) as [Hin _]. split; [done|]. right.
      split; [|done].
      assert (Hlt : p < length px).
      { apply lookup_lt_Some in Hp.
        assert (∀ k i l, length (grow_steps adj mask i k l) = length l) as Hlen.
        { clear. induction k as [|k IHk]; intros i l; simpl; [done|].
          by rewrite IHk, length_grow_step. }
        by rewrite Hlen in Hp. }
      destruct (lookup_lt_is_Some_2 px p Hlt) as [u Hu].
      destruct (N.eqb_spec u 0) as [->|Hu0]; [done|].
      rewrite (grow_steps_keeps adj mask n 0 px p u Hu Hu0) in Hp. congruence.
Qed.

(** The pixel array that [GrowRegions] returns, as a number of growth
    steps. *)
Lemma GrowRegions_steps (label out : Image N) (mask : option (Image bool))
    (connectivity : Z) (iterations : nat) :
  GrowRegions label mask connectivity iterations = Ok out →
  Sizes out = Sizes label
  ∧ ∃ k,
      Pixels out
      = grow_steps
          (fun i => neighbors (Sizes label)
                      (connectivity_at connectivity (Dimensionality label) i) [])
          (option_map Pixels mask) 0 k (Pixels label)
      ∧ (iterations ≠ 0 → k = iterations)
      ∧ (iterations = 0 →
         stable
           (fun i => neighbors (Sizes label)
                       (connectivity_at connectivity (Dimensionality label) i) [])
           (option_map Pixels mask) k (Pixels out)).
Proof.
  unfold GrowRegions.
  destruct ((connectivity <? 0)%Z && _); [done|].
  intros [= <-]. split; [done|].
  destruct (Nat.eqb_spec iterations 0) as [->|Hne].
  - destruct (grow_until_stable_spec
                (fun i => neighbors (Sizes label)
                   (connectivity_at connectivity (Dimensionality label) i) [])
                (option_map Pixels mask) (2 * length (Pixels label) + 1) 0
                (Pixels label)) as (k & Hk & Hst).
    { left. unfold background_count.
      pose proof (length_filter (λ v, v = 0%N) (Pixels label)). lia. }
    exists k. split; [exact Hk|]. split; [done|]. intros _.
    rewrite <- Hk in Hst. exact Hst.
  - exists iterations. split; [reflexivity|]. by split.
Qed.

Lemma stable_from_start adj mask (px : list N) :
  (∀ i, adj (S (S i)) = adj i) →
  ∀ j, stable adj mask j px → stable adj mask 0 px.
Proof.
  intros Halt. induction j as [|j IH]; [done|].
  intros [H1 H2]. apply IH. split; [|done]. by rewrite <- Halt.
Qed.

(** X17. The result of [GrowRegions] with [iterations = 0] is a fixed
    point: growing it again under the same mask and connectivity, for any
    number of iterations, returns it unchanged. *)
Theorem GrowRegions_fixed_point (label out : Image N)
    (mask : option (Image bool)) (connectivity : Z) :
  GrowRegions label mask connectivity 0 = Ok out →
  ∀ n, GrowRegions out mask connectivity n = Ok out.
Proof.
  intros Hout n.
  destruct (GrowRegions_steps _ _ _ _ _ Hout) as (Hsizes & k & _ & _ & Hst).
  specialize (Hst eq_refl).
  assert (Halt : ∀ i,
    neighbors (Sizes label)
      (connectivity_at connectivity (Dimensionality label) (S (S i))) []
    = neighbors (Sizes label)
        (connectivity_at connectivity (Dimensionality label) i) []).
  { intros i. by rewrite connectivity_at_alternates. }
  apply (stable_from_start _ _ _ Halt) in Hst.
  revert Hout. unfold GrowRegions, Dimensionality. rewrite Hsizes.
  destruct ((connectivity <? 0)%Z && _); [done|]. intros _.
  destruct out as [sz px]. cbn [Sizes Pixels] in *. subst sz.
  do 2 f_equal.
  destruct (Nat.eqb_spec n 0) as [->|Hn].
  - replace (2 * length px + 1) with (S (2 * length px)) by lia.
    cbn [grow_until_stable]. destruct Hst as [H1 H2].
    by rewrite !bool_decide_eq_true_2.
  - by apply (stable_forever _ _ Halt).
Qed.

Lemma GrowRegions_fixed_point_witness :
  GrowRegions {| Sizes := [7]; Pixels := [1; 1; 1; 0; 2; 2; 2]%N |} None 1 5
  = Ok {| Sizes := [7]; Pixels := [1; 1; 1; 0; 2; 2; 2]%N |}.
Proof.
  refine (GrowRegions_fixed_point
            {| Sizes := [7]; Pixels := [1; 0; 0; 0; 0; 0; 2]%N |}
            {| Sizes := [7]; Pixels := [1; 1; 1; 0; 2; 2; 2]%N |} None 1 _ 5).
  reflexivity.
Defined.

(** X18. [GrowRegions] makes no label of its own and never grows outside
    the mask: every label in the result is a label of the input, and a
    pixel that carries it had it already or was a background pixel that the
    mask (if there is one) allows. *)
Theorem GrowRegions_labels_from_input (label out : Image N)
    (mask : option (Image bool)) (connectivity : Z) (iterations : nat) :
  GrowRegions label mask connectivity iterations = Ok out →
  ∀ p v,
    Pixels out !! p = Some v → v ≠ 0%N →
    v ∈ Pixels label
    ∧ (Pixels label !! p = Some v
       ∨ (Pixels label !! p = Some 0%N
          ∧ match mask with
            | None => True
            | Some m => Pixels m !! p = Some true
            end)).
Proof.
  intros Hout p v Hp Hv.
  destruct (GrowRegions_steps _ _ _ _ _ Hout) as (_ & k & Hk & _).
  rewrite Hk in Hp.
  destruct (grow_steps_origin _ _ _ _ _ _ Hp Hv) as [Hin Hor].
  split; [done|]. by destruct mask.
Qed.

Lemma GrowRegions_labels_from_input_witness :
  let label := {| Sizes := [3; 3]; Pixels := [1; 0; 0; 0; 0; 0; 0; 0; 0]%N |} in
  let m := {| Sizes := [3; 3];
              Pixels := [true; true; false; false; true; false;
                         false; true; true] |} in
  1%N ∈ Pixels label
  ∧ (Pixels label !! 8 = Some 1%N
     ∨ (Pixels label !! 8 = Some 0%N ∧ Pixels m !! 8 = Some true)).
Proof.
  refine (GrowRegions_labels_from_input
            {| Sizes := [3; 3]; Pixels := [1; 0; 0; 0; 0; 0; 0; 0; 0]%N |}
            {| Sizes := [3; 3]; Pixels := [1; 1; 0; 0; 1; 0; 0; 1; 1]%N |}
            (Some {| Sizes := [3; 3];
                     Pixels := [true; true; false; false; true; false;
                                false; true; true] |}) 1 0 _ 8 1%N _ _);
    [reflexivity|reflexivity|lia].
Defined.

(** Two different labels that meet at a background pixel leave it
    background. *)
Lemma grow_step_collision adj mask (px : list N) (p q1 q2 : nat) (v1 v2 : N) :
  px !! p = Some 0%N → px !! q1 = Some v1 → px !! q2 = Some v2 →
  v1 ≠ 0%N → v2 ≠ 0%N → v1 ≠ v2 →
  adj p q1 = true → adj p q2 = true →
  grow_step adj mask px !! p = Some 0%N.
Proof.
  intros Hp Hq1 Hq2 Hv1 Hv2 Hne Ha1 Ha2.
  destruct (lookup_lt_is_Some_2 (grow_step adj mask px) p) as [v Hv].
  { rewrite length_grow_step. by eapply lookup_lt_Some. }
  rewrite Hv. f_equal.
  apply lookup_grow_step in Hv as (u & Hu & ->).
  rewrite Hp in Hu. injection Hu as <-. cbn [N.eqb negb].
  destruct (match mask with None => true | Some m => nth p m false end);
    [|done].
  assert (Hin : ∀ q w, px !! q = Some w → w ≠ 0%N → adj p q = true →
            w ∈ positive_labels
                  (map (fun q => nth q px 0%N)
                     (filter (fun q => adj p q) (seq 0 (length px))))).
  { intros q w Hq Hw Ha. apply elem_of_positive_labels. split; [lia|].
    change (map ?f ?l) with (f <$> l). apply list_elem_of_fmap.
    exists q. split; [by rewrite (nth_lookup_Some _ _ _ _ Hq)|].
    apply list_elem_of_filter. split; [by rewrite Ha|].
    apply elem_of_seq. apply lookup_lt_Some in Hq. lia. }
  pose proof (Hin q1 v1 Hq1 Hv1 Ha1) as H1.
  pose proof (Hin q2 v2 Hq2 Hv2 Ha2) as H2.
  destruct (positive_labels _) as [|w [|? ?]]; [done| |done].
  apply list_elem_of_singleton in H1, H2. congruence.
Qed.

Lemma grow_steps_collision adj mask (p q1 q2 : nat) (v1 v2 : N) :
  v1 ≠ 0%N → v2 ≠ 0%N → v1 ≠ v2 →
  (∀ i, adj i p q1 = true) → (∀ i, adj i p q2 = true) →
  ∀ n i (px : list N),
    px !! p = Some 0%N → px !! q1 = Some v1 → px !! q2 = Some v2 →
    grow_steps adj mask i n px !! p = Some 0%N.
Proof.
  intros Hv1 Hv2 Hne Ha1 Ha2.
  induction n as [|n IH]; intros i px Hp Hq1 Hq2; simpl; [done|].
  apply IH.
  - by apply (grow_step_collision _ _ _ p q1 q2 v1 v2).
  - by apply grow_step_keeps.
  - by apply grow_step_keeps.
Qed.

(** X19. Where two regions meet, [GrowRegions] with a fixed connectivity
    leaves the pixel unassigned: a background pixel that has two neighbors
    with different labels is background in the result, for every iteration
    count and every mask. *)
Theorem GrowRegions_meeting_labels (label out : Image N)
    (mask : option (Image bool)) (connectivity : Z) (iterations : nat)
    (p q1 q2 : nat) (v1 v2 : N) :
  (0 ≤ connectivity)%Z →
  Pixels label !! p = Some 0%N →
  Pixels label !! q1 = Some v1 → Pixels label !! q2 = Some v2 →
  v1 ≠ 0%N → v2 ≠ 0%N → v1 ≠ v2 →
  neighbors (Sizes label) (Z.to_nat connectivity) [] p q1 = true →
  neighbors (Sizes label) (Z.to_nat connectivity) [] p q2 = true →
  GrowRegions label mask connectivity iterations = Ok out →
  Pixels out !! p = Some 0%N.
Proof.
  intros Hc Hp Hq1 Hq2 Hv1 Hv2 Hne Ha1 Ha2 Hout.
  destruct (GrowRegions_steps _ _ _ _ _ Hout) as (_ & k & -> & _).
  assert (Hconn : ∀ i,
    connectivity_at connectivity (Dimensionality label) i
    = Z.to_nat connectivity).
  { intros i. unfold connectivity_at.
    by destruct (Z.leb_spec 0 connectivity); [|lia]. }
  apply (grow_steps_collision _ _ p q1 q2 v1 v2); try done.
  - intros i. by rewrite Hconn.
  - intros i. by rewrite Hconn.
Qed.

Lemma GrowRegions_meeting_labels_witness :
  Pixels {| Sizes := [3]; Pixels := [1; 0; 2]%N |} !! 1 = Some 0%N.
Proof.
  apply (GrowRegions_meeting_labels
           {| Sizes := [3]; Pixels := [1; 0; 2]%N |}
           {| Sizes := [3]; Pixels := [1; 0; 2]%N |} None 1 0 1 0 2 1%N 2%N);
    try reflexivity; try lia; done.
Defined.

(** ** [Relabel] *)

Lemma StronglySorted_of_nat_seq (n : nat) :
  ∀ a, StronglySorted N.le (N.of_nat <$> seq a n).
Proof.
  induction n as [|n IH]; intros a; simpl; constructor; [apply IH|].
  apply Forall_forall. intros v Hv.
  apply list_elem_of_fmap in Hv as (i & -> & Hi).
  apply elem_of_seq in Hi. lia.
Qed.

Lemma NoDup_of_nat_seq (a n : nat) : NoDup (N.of_nat <$> seq a n).
Proof.
  apply NoDup_fmap_2; [|apply NoDup_seq]. intros x y. lia.
Qed.

(** After [Relabel] the labels present are [1..K], in this order. *)
Lemma Relabel_labels (label : Image N) :
  GetObjectLabels (Relabel label) None false
  = N.of_nat <$> seq 1 (length (GetObjectLabels label None false)).
Proof.
  destruct (GetObjectLabels_positive label) as (Hperm & Hnd & _).
  destruct (GetObjectLabels_positive (Relabel label)) as (Hperm' & Hnd' & Hs').
  cbv zeta in *.
  apply (StronglySorted_unique N.le); [done|apply StronglySorted_of_nat_seq|].
  apply NoDup_Permutation; [done|apply NoDup_of_nat_seq|].
  intros v. rewrite Hperm', elem_of_positive_labels.
  set (labels := GetObjectLabels label None false) in *.
  unfold Relabel at 1. cbn [Pixels]. fold labels.
  change (map ?f ?l) with (f <$> l).
  rewrite list_elem_of_fmap. split.
  - intros (Hpos & a & -> & Ha).
    destruct (N.eqb_spec a 0) as [Ha0|Ha0]; [lia|].
    assert (Hin : a ∈ labels).
    { rewrite Hperm. apply elem_of_positive_labels. split; [lia|done]. }
    apply list_elem_of_lookup in Hin as [i Hi].
    rewrite (find_index_lookup _ _ _ Hnd Hi).
    apply list_elem_of_fmap. exists (S i). split; [done|].
    apply elem_of_seq. apply lookup_lt_Some in Hi. lia.
  - intros Hv. apply list_elem_of_fmap in Hv as (j & -> & Hj).
    apply elem_of_seq in Hj. destruct j as [|i]; [lia|].
    destruct (lookup_lt_is_Some_2 labels i) as [a Hi]; [lia|].
    assert (Hin : a ∈ positive_labels (Pixels label)).
    { rewrite <- Hperm. by eapply list_elem_of_lookup_2. }
    apply elem_of_positive_labels in Hin as [Hpos Hin].
    split; [lia|]. exists a. split; [|done].
    destruct (N.eqb_spec a 0) as [Ha0|_]; [lia|].
    by rewrite (find_index_lookup _ _ _ Hnd Hi).
Qed.

(** A labelling whose labels are [1..K] is left as it is. *)
Lemma Relabel_of_contiguous (label : Image N) (K : nat) :
  GetObjectLabels label None false = N.of_nat <$> seq 1 K →
  Relabel label = label.
Proof.
  intros Hlabels.
  destruct (GetObjectLabels_positive label) as (Hperm & _ & _).
  cbv zeta in Hperm.
  unfold Relabel. rewrite Hlabels in Hperm |- *.
  destruct label as [sz px]. cbn [Sizes Pixels] in *. f_equal.
  rewrite <- (map_id px) at 2. apply map_ext_in. intros v Hv.
  apply list_elem_of_In in Hv.
  destruct (N.eqb_spec v 0) as [Hv0|Hv0]; [done|].
  assert (Hin : v ∈ N.of_nat <$> seq 1 K).
  { rewrite Hperm. apply elem_of_positive_labels. split; [lia|done]. }
  apply list_elem_of_lookup in Hin as [i Hi].
  rewrite (find_index_lookup _ _ _ (NoDup_of_nat_seq 1 K) Hi).
  rewrite list_lookup_fmap in Hi.
  destruct (seq 1 K !! i) as [j|] eqn:Hj; [|done].
  apply lookup_seq in Hj as [-> _]. simpl in Hi. by injection Hi as <-.
Qed.

(** X20. [Relabel] changes nothing in a label image whose labels are
    already consecutive from 1. *)
Theorem Relabel_consecutive_unchanged (label : Image N) (K : nat) :
  GetObjectLabels label None false = N.of_nat <$> seq 1 K →
  Relabel label = label.
Proof. apply Relabel_of_contiguous. Qed.

Lemma Relabel_consecutive_unchanged_witness :
  Relabel {| Sizes := [2; 3]; Pixels := [2; 0; 1; 3; 3; 2]%N |}
  = {| Sizes := [2; 3]; Pixels := [2; 0; 1; 3; 3; 2]%N |}.
Proof.
  apply (Relabel_consecutive_unchanged
           {| Sizes := [2; 3]; Pixels := [2; 0; 1; 3; 3; 2]%N |} 3).
  reflexivity.
Defined.

(** X21. [Relabel] is idempotent: relabelling its result gives the same
    label image. *)
Theorem Relabel_idempotent (label : Image N) :
  Relabel (Relabel label) = Relabel label.
Proof.
  apply (Relabel_of_contiguous _ (length (GetObjectLabels label None false))).
  apply Relabel_labels.
Qed.

End RegionsMore.
